(** * The contract-call argument assembler of ethereal's funcparser

    A shallow embedding of [methodListener] (package [funcparser]) and of the
    structural events the grammar walker feeds it, followed by the properties
    of the assembler.

    Conventions of the embedding:
    - a Go [int] is a [Z] kept in the 64-bit signed range by [int_wrap];
    - a Go run-time panic (nil dereference, index out of range, failed type
      assertion, slice bounds) is the [Panics] outcome of a handler: nothing
      in the package recovers, so a panic ends the walk;
    - a value held in an [interface{}] is a [Value] carrying its dynamic Go
      type; [x.(T)] is [assertType];
    - the [error] values built with [fmt.Errorf] are the constructors of
      [error], one per format string of the source. *)

From stdpp Require Import base decidable option list strings gmap.
From Stdlib Require Import ZArith Lia Ascii.

#[local] Set Warnings "-register-all".
Local Open Scope Z_scope.

(** ** Go run-time outcomes *)

Inductive panic : Set :=
| NilDereference
| IndexOutOfRange
| SliceBoundsOutOfRange
| TypeAssertionFailed.

Inductive outcome (A : Type) : Type :=
| Done (a : A)
| Panics (p : panic).
Arguments Done {A} a.
Arguments Panics {A} p.

#[global] Instance outcome_ret : MRet outcome := fun A a => Done a.
#[global] Instance outcome_bind : MBind outcome := fun A B f o =>
  match o with
  | Done a => f a
  | Panics p => Panics p
  end.

(** Go's [int] on the 64-bit targets the tool is built for. *)
Definition int_wrap (z : Z) : Z := (z + 2 ^ 63) `mod` 2 ^ 64 - 2 ^ 63.

(** [len(s)] *)
Definition len {A} (s : list A) : Z := Z.of_nat (length s).

(** [s[i]], which panics out of range *)
Definition index {A} (s : list A) (i : Z) : outcome A :=
  if i <? 0 then Panics IndexOutOfRange
  else match s !! Z.to_nat i with
       | Some x => Done x
       | None => Panics IndexOutOfRange
       end.

(** [s[i] = x], which panics out of range *)
Definition store {A} (s : list A) (i : Z) (x : A) : outcome (list A) :=
  if (i <? 0) || (len s <=? i) then Panics IndexOutOfRange
  else Done (<[Z.to_nat i := x]> s).

(** [s[:n]] for [n] within the length of [s] (none of the slices of the
    listener is re-sliced beyond its length) *)
Definition slice_to {A} (s : list A) (n : Z) : outcome (list A) :=
  if (n <? 0) || (len s <? n) then Panics SliceBoundsOutOfRange
  else Done (take (Z.to_nat n) s).

(** ** The part of go-ethereum's [abi] package the listener reads *)

Module abi.

(** The [T] tag of an [abi.Type]. *)
Inductive TyKind : Set :=
| IntTy | UintTy | BoolTy | StringTy | SliceTy | ArrayTy | TupleTy
| AddressTy | FixedBytesTy | BytesTy | HashTy | FixedPointTy | FunctionTy.

(** [abi.Type]: the fields the listener reads.  [Elem] is a pointer, nil
    for an elementary type. *)
Inductive Ty : Type :=
| MkTy (T : TyKind) (Size : Z) (Elem : option Ty).

Definition T (t : Ty) : TyKind := let '(MkTy k _ _) := t in k.
Definition Size (t : Ty) : Z := let '(MkTy _ s _) := t in s.
Definition Elem (t : Ty) : option Ty := let '(MkTy _ _ e) := t in e.

Record Argument : Type := MkArgument {
  ArgName : string;
  Type_ : Ty
}.

Record Method : Type := MkMethod {
  Name : string;
  Inputs : list Argument
}.

Record ABI : Type := MkABI {
  Constructor : Method;
  Methods : gmap string Method
}.

#[global] Instance TyKind_eq_dec : EqDecision TyKind.
Proof. solve_decision. Defined.

End abi.

(** [util.Contract]: the listener only reads its [Abi]. *)
Record Contract : Type := MkContract { Abi : abi.ABI }.

(** ** Go values behind [interface{}] *)

Inductive IntKind : Set :=
| Int8 | Int16 | Int32 | Int64 | Uint8 | Uint16 | Uint32 | Uint64.

(** The Go types that occur as dynamic types here.  [byte] is [uint8], so
    [[]byte] is [GSlice (GInt Uint8)]; [common.Address] and [common.Hash]
    are named array types. *)
Inductive GoType : Set :=
| GInt (k : IntKind)
| GBigInt
| GBool
| GString
| GAddress
| GHash
| GInterface
| GSlice (elem : GoType).

#[global] Instance IntKind_eq_dec : EqDecision IntKind.
Proof. solve_decision. Defined.
#[global] Instance GoType_eq_dec : EqDecision GoType.
Proof. solve_decision. Defined.

Inductive Value : Type :=
| VNil
| VInt (k : IntKind) (z : Z)
| VBigInt (z : Z)
| VBool (b : bool)
| VString (s : string)
| VAddress (bs : list Z)
| VHash (bs : list Z)
| VSlice (elem : GoType) (xs : list Value).

(** The dynamic type of an interface value; [None] for the nil interface. *)
Definition typeOf (v : Value) : option GoType :=
  match v with
  | VNil => None
  | VInt k _ => Some (GInt k)
  | VBigInt _ => Some GBigInt
  | VBool _ => Some GBool
  | VString _ => Some GString
  | VAddress _ => Some GAddress
  | VHash _ => Some GHash
  | VSlice elem _ => Some (GSlice elem)
  end.

(** [v.(t)] for a concrete type [t] *)
Definition assertType (t : GoType) (v : Value) : outcome Value :=
  if decide (typeOf v = Some t) then Done v else Panics TypeAssertionFailed.

(** [v.([]elem)], giving the elements *)
Definition assertSlice (elem : GoType) (v : Value) : outcome (list Value) :=
  match v with
  | VSlice elem' xs =>
      if decide (elem' = elem) then Done xs else Panics TypeAssertionFailed
  | _ => Panics TypeAssertionFailed
  end.

(** [append(frame.([]elem), arg.(elem))] *)
Definition appendTyped (elem : GoType) (frame arg : Value) : outcome Value :=
  xs ← assertSlice elem frame;
  a ← assertType elem arg;
  Done (VSlice elem (xs ++ [a])).

(** [append(frame.([]interface{}), arg)]: any value goes into an
    [interface{}] element *)
Definition appendIface (frame arg : Value) : outcome Value :=
  xs ← assertSlice GInterface frame;
  Done (VSlice GInterface (xs ++ [arg])).

(** ** Errors *)

Inductive error : Type :=
| ErrUnknownMethod (name : string)        (* "unknown method name %s" *)
| ErrUnexpectedType (t : abi.Ty)          (* "unexpected type %v" *)
| ErrTooManyArgumentsAt (text : string)   (* "too many arguments for method at %s" *)
| ErrTooManyArguments (expected : Z)      (* "too many arguments (expected %d)" *)
| ErrUnhandledArrayType (k : abi.TyKind)  (* "unhandled array type %v" *)
| ErrUnhandledNestingLevel (level : Z)    (* "unhandled nesting level %d" *)
| ErrConversion (msg : string).           (* an error of the conversion functions *)

(** ** Type introspection *)

Fixpoint baseType (inputType : abi.Ty) : outcome abi.Ty :=
  match inputType with
  | abi.MkTy abi.SliceTy _ elem | abi.MkTy abi.ArrayTy _ elem =>
      match elem with
      | Some e => baseType e
      | None => Panics NilDereference
      end
  | _ => Done inputType
  end.

Fixpoint arrayLevel (inputType : abi.Ty) : outcome Z :=
  match inputType with
  | abi.MkTy abi.SliceTy _ elem | abi.MkTy abi.ArrayTy _ elem =>
      match elem with
      | Some e => n ← arrayLevel e; Done (int_wrap (1 + n))
      | None => Panics NilDereference
      end
  | _ => Done 0
  end.

(** ** makeArray *)

Definition emptySlice (elem : GoType) : Value * option error :=
  (VSlice elem [], None).

Definition makeArray (baseType : abi.Ty) (level : Z) : Value * option error :=
  if level =? 2 then
    match abi.T baseType with
    | abi.IntTy =>
        match abi.Size baseType with
        | 8 => emptySlice (GSlice (GInt Int8))
        | 16 => emptySlice (GSlice (GInt Int16))
        | 32 => emptySlice (GSlice (GInt Int32))
        | 64 => emptySlice (GSlice (GInt Int64))
        | _ => emptySlice (GSlice GBigInt)
        end
    | abi.UintTy =>
        match abi.Size baseType with
        | 8 => emptySlice (GSlice (GInt Uint8))
        | 16 => emptySlice (GSlice (GInt Uint16))
        | 32 => emptySlice (GSlice (GInt Uint32))
        | 64 => emptySlice (GSlice (GInt Uint64))
        | _ => emptySlice (GSlice GBigInt)
        end
    | abi.BoolTy => emptySlice (GSlice GBool)
    | abi.StringTy => emptySlice (GSlice GString)
    | abi.AddressTy => emptySlice (GSlice GAddress)
    | abi.HashTy => emptySlice (GSlice GHash)
    | abi.BytesTy | abi.FixedBytesTy => emptySlice (GSlice (GSlice (GInt Uint8)))
    | k => (VNil, Some (ErrUnhandledArrayType k))
    end
  else if level =? 1 then
    match abi.T baseType with
    | abi.IntTy =>
        match abi.Size baseType with
        | 8 => emptySlice (GInt Int8)
        | 16 => emptySlice (GInt Int16)
        | 32 => emptySlice (GInt Int32)
        | 64 => emptySlice (GInt Int64)
        | _ => emptySlice GBigInt
        end
    | abi.UintTy =>
        match abi.Size baseType with
        | 8 => emptySlice (GInt Uint8)
        | 16 => emptySlice (GInt Uint16)
        | 32 => emptySlice (GInt Uint32)
        | 64 => emptySlice (GInt Uint64)
        | _ => emptySlice GBigInt
        end
    | abi.BoolTy => emptySlice GBool
    | abi.StringTy => emptySlice GString
    | abi.AddressTy => emptySlice GAddress
    | abi.HashTy => emptySlice GHash
    | abi.BytesTy | abi.FixedBytesTy => emptySlice (GSlice (GInt Uint8))
    | k => (VNil, Some (ErrUnhandledArrayType k))
    end
  else (VNil, Some (ErrUnhandledNestingLevel level)).

(** ** The conversion functions

    [StrToInt], [StrToUint], [StrToBool], [StrToStr], [StrToAddress],
    [StrToHash] and [StrToBytes] live in another file of the package; the
    listener only calls them, each with the base type and the literal's
    text, and looks at the [(value, error)] pair they return. *)

Class Conversion : Type := {
  StrToInt : abi.Ty -> string -> Value * option error;
  StrToUint : abi.Ty -> string -> Value * option error;
  StrToBool : abi.Ty -> string -> Value * option error;
  StrToStr : abi.Ty -> string -> Value * option error;
  StrToAddress : abi.Ty -> string -> Value * option error;
  StrToHash : abi.Ty -> string -> Value * option error;
  StrToBytes : abi.Ty -> string -> Value * option error
}.

(** ** The listener *)

Record methodListener : Type := MkListener {
  contract : Contract;
  curArg : Z;
  curArray : list Value;
  maxArrayLevel : Z;
  method : option abi.Method;
  args : list Value;
  err : option error
}.

Definition set_curArg (l : methodListener) (n : Z) : methodListener :=
  MkListener (contract l) n (curArray l) (maxArrayLevel l)
             (method l) (args l) (err l).
Definition set_curArray (l : methodListener) (a : list Value) : methodListener :=
  MkListener (contract l) (curArg l) a (maxArrayLevel l)
             (method l) (args l) (err l).
Definition set_maxArrayLevel (l : methodListener) (n : Z) : methodListener :=
  MkListener (contract l) (curArg l) (curArray l) n
             (method l) (args l) (err l).
Definition set_method (l : methodListener) (m : abi.Method) : methodListener :=
  MkListener (contract l) (curArg l) (curArray l) (maxArrayLevel l)
             (Some m) (args l) (err l).
Definition set_args (l : methodListener) (a : list Value) : methodListener :=
  MkListener (contract l) (curArg l) (curArray l) (maxArrayLevel l)
             (method l) a (err l).
Definition set_err (l : methodListener) (e : error) : methodListener :=
  MkListener (contract l) (curArg l) (curArray l) (maxArrayLevel l)
             (method l) (args l) (Some e).

Definition newMethodListener (c : Contract) : methodListener :=
  MkListener c 0 [] 0 None [] None.

(** [l.method.Inputs]: [l.method] is a pointer, nil until a method is
    resolved. *)
Definition methodInputs (l : methodListener) : outcome (list abi.Argument) :=
  match method l with
  | Some m => Done (abi.Inputs m)
  | None => Panics NilDereference
  end.

(** [input := l.method.Inputs[l.curArg]; baseType := baseType(&input.Type)] *)
Definition curBaseType (l : methodListener) : outcome abi.Ty :=
  inputs ← methodInputs l;
  input ← index inputs (curArg l);
  baseType (abi.Type_ input).

Definition EnterFuncName (text : string) (l : methodListener)
  : outcome methodListener :=
  if decide (text = "constructor") then
    Done (set_method l (abi.Constructor (Abi (contract l))))
  else
    match abi.Methods (Abi (contract l)) !! text with
    | Some m => Done (set_method l m)
    | None => Done (set_err l (ErrUnknownMethod text))
    end.

(** [l.curArray[len(l.curArray)-1] = append(l.curArray[len(l.curArray)-1].([]T), arg.(T))] *)
Definition pushLast (elem : GoType) (l : methodListener) (arg : Value)
  : outcome methodListener :=
  let last := int_wrap (len (curArray l) - 1) in
  frame ← index (curArray l) last;
  frame' ← appendTyped elem frame arg;
  a ← store (curArray l) last frame';
  Done (set_curArray l a).

Definition pushArg (l : methodListener) (arg : Value) : outcome methodListener :=
  if len (curArray l) =? 0 then
    Done (set_args l (args l ++ [arg]))
  else
    baseType ← curBaseType l;
    match abi.T baseType with
    | abi.IntTy =>
        match abi.Size baseType with
        | 8 => pushLast (GInt Int8) l arg
        | 16 => pushLast (GInt Int16) l arg
        | 32 => pushLast (GInt Int32) l arg
        | 64 => pushLast (GInt Int64) l arg
        | _ => pushLast GBigInt l arg
        end
    | abi.UintTy =>
        match abi.Size baseType with
        | 8 => pushLast (GInt Uint8) l arg
        | 16 => pushLast (GInt Uint16) l arg
        | 32 => pushLast (GInt Uint32) l arg
        | 64 => pushLast (GInt Uint64) l arg
        | _ => pushLast GBigInt l arg
        end
    | abi.BoolTy => pushLast GBool l arg
    | abi.StringTy => pushLast GString l arg
    | abi.AddressTy => pushLast GAddress l arg
    | abi.HashTy => pushLast GHash l arg
    | abi.BytesTy | abi.FixedBytesTy => pushLast (GSlice (GInt Uint8)) l arg
    | _ =>
        let last := int_wrap (len (curArray l) - 1) in
        frame ← index (curArray l) last;
        frame' ← appendIface frame arg;
        a ← store (curArray l) last frame';
        Done (set_curArray l a)
    end.

(** The common tail of the literal handlers:
    [if err != nil { l.err = err } else { l.pushArg(arg) }] *)
Definition pushConverted (l : methodListener) (r : Value * option error)
  : outcome methodListener :=
  match r with
  | (_, Some e) => Done (set_err l e)
  | (arg, None) => pushArg l arg
  end.

Section Handlers.
Context `{Conversion}.

Definition EnterIntArg (text : string) (l : methodListener)
  : outcome methodListener :=
  match err l with
  | Some _ => Done l
  | None =>
      baseType ← curBaseType l;
      pushConverted l
        match abi.T baseType with
        | abi.IntTy => StrToInt baseType text
        | abi.UintTy => StrToUint baseType text
        | _ => (VNil, Some (ErrUnexpectedType baseType))
        end
  end.

Definition EnterBoolArg (text : string) (l : methodListener)
  : outcome methodListener :=
  match err l with
  | Some _ => Done l
  | None =>
      baseType ← curBaseType l;
      pushConverted l (StrToBool baseType text)
  end.

Definition EnterStringArg (text : string) (l : methodListener)
  : outcome methodListener :=
  match err l with
  | Some _ => Done l
  | None =>
      baseType ← curBaseType l;
      pushConverted l (StrToStr baseType text)
  end.

Definition EnterHexArg (text : string) (l : methodListener)
  : outcome methodListener :=
  match err l with
  | Some _ => Done l
  | None =>
      baseType ← curBaseType l;
      pushConverted l
        match abi.T baseType with
        | abi.AddressTy => StrToAddress baseType text
        | abi.HashTy => StrToHash baseType text
        | abi.BytesTy | abi.FixedBytesTy => StrToBytes baseType text
        | _ => (VNil, Some (ErrUnexpectedType baseType))
        end
  end.

End Handlers.

(** The loop of [EnterArrayArg]:
    [for ; level > 0; level-- { array, err := makeArray(baseType, level); ... }] *)
Fixpoint openLevels (baseType : abi.Ty) (level : nat) (l : methodListener)
  : methodListener :=
  match level with
  | O => l
  | S level' =>
      match makeArray baseType (Z.of_nat level) with
      | (_, Some e) => set_err l e
      | (array, None) =>
          openLevels baseType level' (set_curArray l (curArray l ++ [array]))
      end
  end.

Definition EnterArrayArg (text : string) (l : methodListener)
  : outcome methodListener :=
  match err l with
  | Some _ => Done l
  | None =>
      inputs ← methodInputs l;
      if len inputs <=? curArg l then
        Done (set_err l (ErrTooManyArgumentsAt text))
      else
        input ← index inputs (curArg l);
        baseType ← baseType (abi.Type_ input);
        level ← arrayLevel (abi.Type_ input);
        if len (curArray l) =? 0 then
          (* New array *)
          Done (openLevels baseType (Z.to_nat level)
                  (set_maxArrayLevel (set_curArray l []) level))
        else
          (* Extend existing array *)
          Done (openLevels baseType
                  (Z.to_nat (int_wrap (level - len (curArray l)))) l)
  end.

(** [l.curArray[parent] = append(l.curArray[parent].([]elem), l.curArray[child].(elem))] *)
Definition joinLast (elem : GoType) (l : methodListener) (parent child : Z)
  : outcome methodListener :=
  p ← index (curArray l) parent;
  xs ← assertSlice elem p;
  c ← index (curArray l) child;
  c' ← assertType elem c;
  a ← store (curArray l) parent (VSlice elem (xs ++ [c']));
  Done (set_curArray l a).

(** [l.curArray[parent] = append(l.curArray[parent].([]interface{}), l.curArray[child])] *)
Definition joinLastIface (l : methodListener) (parent child : Z)
  : outcome methodListener :=
  p ← index (curArray l) parent;
  xs ← assertSlice GInterface p;
  c ← index (curArray l) child;
  a ← store (curArray l) parent (VSlice GInterface (xs ++ [c]));
  Done (set_curArray l a).

(** [l.curArray = l.curArray[:len(l.curArray)-1]] *)
Definition popLast (l : methodListener) : outcome methodListener :=
  a ← slice_to (curArray l) (int_wrap (len (curArray l) - 1));
  Done (set_curArray l a).

(** The switch of [ExitArrayArg] for [level == 1]: a finished list of
    elements goes into the list of lists above it. *)
Definition joinLevel1 (baseType : abi.Ty) (l : methodListener)
    (parent child : Z) : outcome methodListener :=
  match abi.T baseType with
  | abi.IntTy =>
      match abi.Size baseType with
      | 8 => joinLast (GSlice (GInt Int8)) l parent child
      | 16 => joinLast (GSlice (GInt Int16)) l parent child
      | 32 => joinLast (GSlice (GInt Int32)) l parent child
      | 64 => joinLast (GSlice (GInt Int64)) l parent child
      | _ => joinLast (GSlice GBigInt) l parent child
      end
  | abi.UintTy =>
      match abi.Size baseType with
      | 8 => joinLast (GSlice (GInt Uint8)) l parent child
      | 16 => joinLast (GSlice (GInt Uint16)) l parent child
      | 32 => joinLast (GSlice (GInt Uint32)) l parent child
      | 64 => joinLast (GSlice (GInt Uint64)) l parent child
      | _ => joinLast (GSlice GBigInt) l parent child
      end
  | abi.BoolTy => joinLast (GSlice GBool) l parent child
  | abi.StringTy => joinLast (GSlice GString) l parent child
  | abi.AddressTy => joinLast (GSlice GAddress) l parent child
  | abi.HashTy => joinLast (GSlice GHash) l parent child
  | abi.BytesTy | abi.FixedBytesTy =>
      joinLast (GSlice (GSlice (GInt Uint8))) l parent child
  | _ => joinLastIface l parent child
  end.

(** The switch of [ExitArrayArg] for [level == 2]. *)
Definition joinLevel2 (baseType : abi.Ty) (l : methodListener)
    (parent child : Z) : outcome methodListener :=
  match abi.T baseType with
  | abi.IntTy =>
      match abi.Size baseType with
      | 8 => joinLast (GSlice (GSlice (GInt Int8))) l parent child
      | 16 => joinLast (GSlice (GSlice (GInt Int16))) l parent child
      | 32 => joinLast (GSlice (GSlice (GInt Int32))) l parent child
      | 64 => joinLast (GSlice (GSlice (GInt Int64))) l parent child
      | _ => joinLast (GSlice (GSlice GBigInt)) l parent child
      end
  | abi.UintTy =>
      match abi.Size baseType with
      | 8 => joinLast (GSlice (GSlice (GInt Uint8))) l parent child
      | 16 => joinLast (GSlice (GSlice (GInt Uint16))) l parent child
      | 32 => joinLast (GSlice (GSlice (GInt Uint32))) l parent child
      | 64 => joinLast (GSlice (GSlice (GInt Uint64))) l parent child
      | _ => joinLast (GSlice (GSlice GBigInt)) l parent child
      end
  | abi.BoolTy => joinLast (GSlice (GSlice GBool)) l parent child
  | abi.StringTy => joinLast (GSlice (GSlice GString)) l parent child
  | abi.AddressTy => joinLast (GSlice (GSlice GAddress)) l parent child
  | abi.HashTy => joinLast (GSlice (GSlice GHash)) l parent child
  | abi.BytesTy | abi.FixedBytesTy =>
      joinLast (GSlice (GSlice (GSlice (GInt Uint8)))) l parent child
  | _ => joinLast (GSlice GInterface) l parent child
  end.

Definition ExitArrayArg (l : methodListener) : outcome methodListener :=
  match err l with
  | Some _ => Done l
  | None =>
      let level := len (curArray l) in
      if level =? 1 then
        (* Only array; push to args *)
        top ← index (curArray l) 0;
        popLast (set_args l (args l ++ [top]))
      else
        (* Nested arrays; push to one above *)
        baseType ← curBaseType l;
        let level := int_wrap (int_wrap (maxArrayLevel l + 1) - level) in
        let parent := int_wrap (len (curArray l) - 2) in
        let child := int_wrap (len (curArray l) - 1) in
        l' ←
          (if level =? 1 then joinLevel1 baseType l parent child
           else if level =? 2 then joinLevel2 baseType l parent child
           else Done l);
        popLast l'
  end.

Definition EnterArg (l : methodListener) : outcome methodListener :=
  match err l with
  | Some _ => Done l
  | None =>
      inputs ← methodInputs l;
      if len inputs <=? curArg l then
        Done (set_err l (ErrTooManyArguments (len inputs)))
      else Done l
  end.

Definition ExitArg (l : methodListener) : outcome methodListener :=
  match err l with
  | Some _ => Done l
  | None =>
      (* We only increment the argument if we aren't in an array *)
      if len (curArray l) =? 0 then
        Done (set_curArg l (int_wrap (curArg l + 1)))
      else Done l
  end.

(** ** The structural events

    The walker of the grammar calls the listener once per node it enters or
    leaves; the text of a node is what [c.GetText()] returns.  Only the
    callbacks the listener overrides are events. *)

Inductive event : Type :=
| OnFunctionName (text : string)
| OnArgumentStart
| OnArgumentEnd
| OnInt (text : string)
| OnBool (text : string)
| OnString (text : string)
| OnHex (text : string)
| OnArrayStart (text : string)
| OnArrayEnd.

Section Walk.
Context `{Conversion}.

Definition handle (e : event) (l : methodListener) : outcome methodListener :=
  match e with
  | OnFunctionName text => EnterFuncName text l
  | OnArgumentStart => EnterArg l
  | OnArgumentEnd => ExitArg l
  | OnInt text => EnterIntArg text l
  | OnBool text => EnterBoolArg text l
  | OnString text => EnterStringArg text l
  | OnHex text => EnterHexArg text l
  | OnArrayStart text => EnterArrayArg text l
  | OnArrayEnd => ExitArrayArg l
  end.

(** The walk: the events in order, stopped by a panic. *)
Fixpoint walk (es : list event) (l : methodListener) : outcome methodListener :=
  match es with
  | [] => Done l
  | e :: es' => l' ← handle e l; walk es' l'
  end.

End Walk.

(** ** Call texts as the grammar reads them

    A call is a function name and a list of arguments; an argument is a
    literal token or a bracketed list of arguments.  Every argument, at top
    level or inside brackets, is an [arg] node of the parse tree, so the
    walker brackets it with [OnArgumentStart] and [OnArgumentEnd]. *)

Inductive Lit : Type :=
| LInt (text : string)
| LBool (text : string)
| LString (text : string)
| LHex (text : string)
| LArray (text : string) (elems : list Lit).

(** The events of the literal itself, between the two events of its [arg]
    node. *)
Fixpoint litEvents (a : Lit) : list event :=
  match a with
  | LInt t => [OnInt t]
  | LBool t => [OnBool t]
  | LString t => [OnString t]
  | LHex t => [OnHex t]
  | LArray t elems =>
      OnArrayStart t ::
        flat_map (fun e => OnArgumentStart :: litEvents e ++ [OnArgumentEnd]) elems
        ++ [OnArrayEnd]
  end.

Definition argEvents (a : Lit) : list event :=
  OnArgumentStart :: litEvents a ++ [OnArgumentEnd].

Definition callEvents (name : string) (actuals : list Lit) : list event :=
  OnFunctionName name :: flat_map argEvents actuals.

(** The whole parse of one call text: a fresh listener walks the events. *)
Definition parseCall `{Conversion} (c : Contract) (name : string)
    (actuals : list Lit) : outcome methodListener :=
  walk (callEvents name actuals) (newMethodListener c).

(** ** A model of the conversion functions

    The seven functions are not part of the listener; this instance is what
    the examples below run the listener with. *)

Module SpecConversion.

Definition code (c : ascii) : Z := Z.of_N (Ascii.N_of_ascii c).

Definition digit (c : ascii) : option Z :=
  let n := code c in
  if (48 <=? n) && (n <=? 57) then Some (n - 48) else None.

Definition hexDigit (c : ascii) : option Z :=
  let n := code c in
  if (48 <=? n) && (n <=? 57) then Some (n - 48)
  else if (97 <=? n) && (n <=? 102) then Some (n - 87)
  else if (65 <=? n) && (n <=? 70) then Some (n - 55)
  else None.

Fixpoint decimalFrom (acc : Z) (s : string) : option Z :=
  match s with
  | EmptyString => Some acc
  | String c s' =>
      match digit c with
      | Some d => decimalFrom (10 * acc + d) s'
      | None => None
      end
  end.

(** Decimal text, with an optional minus sign. *)
Definition decimal (s : string) : option Z :=
  match s with
  | EmptyString => None
  | String "-" (String c s') => Z.opp <$> decimalFrom 0 (String c s')
  | _ => decimalFrom 0 s
  end.

Fixpoint hexBytes (s : string) : option (list Z) :=
  match s with
  | EmptyString => Some []
  | String a (String b s') =>
      match hexDigit a, hexDigit b, hexBytes s' with
      | Some h, Some l, Some r => Some ((16 * h + l) :: r)
      | _, _, _ => None
      end
  | _ => None
  end.

(** Hex text, with an optional [0x] prefix. *)
Definition hexText (s : string) : option (list Z) :=
  match s with
  | String "0" (String "x" s') => hexBytes s'
  | _ => hexBytes s
  end.

Definition lower (c : ascii) : ascii :=
  let n := code c in
  if (65 <=? n) && (n <=? 90) then Ascii.ascii_of_N (Z.to_N (n + 32)) else c.

Fixpoint lowerString (s : string) : string :=
  match s with
  | EmptyString => EmptyString
  | String c s' => String (lower c) (lowerString s')
  end.

Definition rangeError : error := ErrConversion "RangeError".
Definition formatError : error := ErrConversion "FormatError".

Definition fail (e : error) : Value * option error := (VNil, Some e).

(** Modelled from the spec: [StrToInt], the signed integer conversion
    (decimal text; width 8, 16, 32 or 64 gives the machine integer, any
    other width an arbitrary-precision one; out of range is RangeError). *)
Definition strToInt (t : abi.Ty) (text : string) : Value * option error :=
  match decimal text with
  | None => fail formatError
  | Some z =>
      let w := abi.Size t in
      if (- 2 ^ (w - 1) <=? z) && (z <? 2 ^ (w - 1)) then
        match w with
        | 8 => (VInt Int8 z, None)
        | 16 => (VInt Int16 z, None)
        | 32 => (VInt Int32 z, None)
        | 64 => (VInt Int64 z, None)
        | _ => (VBigInt z, None)
        end
      else fail rangeError
  end.

(** Modelled from the spec: [StrToUint], the unsigned integer conversion
    (as [StrToInt], for the range from 0 to the width's maximum). *)
Definition strToUint (t : abi.Ty) (text : string) : Value * option error :=
  match decimal text with
  | None => fail formatError
  | Some z =>
      let w := abi.Size t in
      if (0 <=? z) && (z <? 2 ^ w) then
        match w with
        | 8 => (VInt Uint8 z, None)
        | 16 => (VInt Uint16 z, None)
        | 32 => (VInt Uint32 z, None)
        | 64 => (VInt Uint64 z, None)
        | _ => (VBigInt z, None)
        end
      else fail rangeError
  end.

(** Modelled from the spec: [StrToBool], the boolean conversion
    (case-insensitive true or false; anything else fails). *)
Definition strToBool (t : abi.Ty) (text : string) : Value * option error :=
  let s := lowerString text in
  if decide (s = "true") then (VBool true, None)
  else if decide (s = "false") then (VBool false, None)
  else fail formatError.

(** Modelled from the spec: [StrToStr], the string conversion (the text
    as it is; never fails). *)
Definition strToStr (t : abi.Ty) (text : string) : Value * option error :=
  (VString text, None).

(** Modelled from the spec: [StrToAddress], the address conversion
    (exactly 20 hex-encoded bytes, else FormatError). *)
Definition strToAddress (t : abi.Ty) (text : string) : Value * option error :=
  match hexText text with
  | Some bs => if len bs =? 20 then (VAddress bs, None) else fail formatError
  | None => fail formatError
  end.

(** Modelled from the spec: [StrToHash], the hash conversion (exactly 32
    hex-encoded bytes, else FormatError). *)
Definition strToHash (t : abi.Ty) (text : string) : Value * option error :=
  match hexText text with
  | Some bs => if len bs =? 32 then (VHash bs, None) else fail formatError
  | None => fail formatError
  end.

(** Modelled from the spec: [StrToBytes], the byte-string conversion (the
    hex-decoded bytes; a fixed-size type fails when the decoded length is
    not its size). *)
Definition strToBytes (t : abi.Ty) (text : string) : Value * option error :=
  match hexText text with
  | Some bs =>
      if bool_decide (abi.T t = abi.FixedBytesTy) && negb (len bs =? abi.Size t)
      then fail formatError
      else (VSlice (GInt Uint8) (VInt Uint8 <$> bs), None)
  | None => fail formatError
  end.

#[export] Instance conversion : Conversion := {|
  StrToInt := strToInt;
  StrToUint := strToUint;
  StrToBool := strToBool;
  StrToStr := strToStr;
  StrToAddress := strToAddress;
  StrToHash := strToHash;
  StrToBytes := strToBytes
|}.

End SpecConversion.

(** ** Sample interfaces *)

Module Samples.
Import SpecConversion.

Definition elementary (k : abi.TyKind) (size : Z) : abi.Ty := abi.MkTy k size None.
Definition sliceOf (t : abi.Ty) : abi.Ty := abi.MkTy abi.SliceTy 0 (Some t).

Definition uint8 := elementary abi.UintTy 8.
Definition uint256 := elementary abi.UintTy 256.
Definition address := elementary abi.AddressTy 20.
Definition boolean := elementary abi.BoolTy 0.

Definition signature (name : string) (ts : list abi.Ty) : abi.Method :=
  abi.MkMethod name (abi.MkArgument "" <$> ts).

Definition interface (ms : list abi.Method) : Contract :=
  MkContract (abi.MkABI (signature "" [])
                (list_to_map ((fun m => (abi.Name m, m)) <$> ms))).

Definition token : Contract :=
  interface [ signature "transfer" [address; uint256];
              signature "setValues" [sliceOf uint8];
              signature "f" [uint256];
              signature "g" [boolean];
              signature "h" [uint8];
              signature "grid" [sliceOf (sliceOf uint8)];
              signature "cube" [sliceOf (sliceOf (sliceOf uint8))] ].

(** What a finished parse hands back: the arguments and the error. *)
Definition result (o : outcome methodListener)
  : outcome (list Value * option error) :=
  l ← o; Done (args l, err l).

(** The parse of a call against [token], with the conversions above. *)
Definition run (name : string) (actuals : list Lit)
  : outcome (list Value * option error) :=
  result (parseCall (H := conversion) token name actuals).

End Samples.

(** ** Sample states *)

(** The listener with the frame of a [uint8[]] argument open. *)
Definition opened : methodListener :=
  MkListener Samples.token 0 [VSlice (GInt Uint8) []] 1
    (Some (Samples.signature "setValues" [Samples.sliceOf Samples.uint8]))
    [] None.

(** The listener at the one parameter of [cube(uint8[][][])]. *)
Definition atCube : methodListener :=
  MkListener Samples.token 0 [] 0
    (Some (Samples.signature "cube"
             [Samples.sliceOf (Samples.sliceOf (Samples.sliceOf Samples.uint8))]))
    [] None.

(** ** Vocabulary of the properties *)

(** The largest [int]: no Go slice is longer. *)
Definition maxInt : Z := 2 ^ 63 - 1.

(** The method a function name designates in a contract. *)
Definition resolves (c : Contract) (name : string) (m : abi.Method) : Prop :=
  (name = "constructor" /\ m = abi.Constructor (Abi c)) \/
  (name <> "constructor" /\ abi.Methods (Abi c) !! name = Some m).

(** The base kinds of the interface: integers, booleans, strings,
    addresses, hashes and byte strings. *)
Definition scalarKind (k : abi.TyKind) : bool :=
  match k with
  | abi.IntTy | abi.UintTy | abi.BoolTy | abi.StringTy
  | abi.AddressTy | abi.HashTy | abi.BytesTy | abi.FixedBytesTy => true
  | _ => false
  end.

(** The Go type of one element of the base type, as the conversion
    functions are expected to produce it and as the frames hold it. *)
Definition elemType (base : abi.Ty) : GoType :=
  match abi.T base with
  | abi.IntTy =>
      if abi.Size base =? 8 then GInt Int8
      else if abi.Size base =? 16 then GInt Int16
      else if abi.Size base =? 32 then GInt Int32
      else if abi.Size base =? 64 then GInt Int64
      else GBigInt
  | abi.UintTy =>
      if abi.Size base =? 8 then GInt Uint8
      else if abi.Size base =? 16 then GInt Uint16
      else if abi.Size base =? 32 then GInt Uint32
      else if abi.Size base =? 64 then GInt Uint64
      else GBigInt
  | abi.BoolTy => GBool
  | abi.StringTy => GString
  | abi.AddressTy => GAddress
  | abi.HashTy => GHash
  | abi.BytesTy | abi.FixedBytesTy => GSlice (GInt Uint8)
  | _ => GInterface
  end.

(** [d] levels of slice around an element type. *)
Fixpoint nest (d : nat) (elem : GoType) : GoType :=
  match d with
  | O => elem
  | S d' => GSlice (nest d' elem)
  end.

(** A value is a [d]-fold nested slice of elements of type [elem]. *)
Fixpoint hasShape (d : nat) (elem : GoType) (v : Value) : Prop :=
  match d with
  | O => typeOf v = Some elem
  | S d' => exists xs, v = VSlice (nest d' elem) xs /\ Forall (hasShape d' elem) xs
  end.

(** The kind of token agrees with the base kind it is given for. *)
Definition agrees (a : Lit) (base : abi.Ty) : Prop :=
  match a with
  | LInt _ => abi.T base = abi.IntTy \/ abi.T base = abi.UintTy
  | LBool _ => abi.T base = abi.BoolTy
  | LString _ => abi.T base = abi.StringTy
  | LHex _ => abi.T base = abi.AddressTy \/ abi.T base = abi.HashTy \/
              abi.T base = abi.BytesTy \/ abi.T base = abi.FixedBytesTy
  | LArray _ _ => False
  end.

Section Literals.
Context `{Conversion}.

(** What the handler of a token asks of the conversion functions. *)
Definition convertLit (base : abi.Ty) (a : Lit) : Value * option error :=
  match a with
  | LInt text =>
      match abi.T base with
      | abi.IntTy => StrToInt base text
      | abi.UintTy => StrToUint base text
      | _ => (VNil, Some (ErrUnexpectedType base))
      end
  | LBool text => StrToBool base text
  | LString text => StrToStr base text
  | LHex text =>
      match abi.T base with
      | abi.AddressTy => StrToAddress base text
      | abi.HashTy => StrToHash base text
      | abi.BytesTy | abi.FixedBytesTy => StrToBytes base text
      | _ => (VNil, Some (ErrUnexpectedType base))
      end
  | LArray _ _ => (VNil, None)
  end.

(** A token that agrees with the base type: its kind fits, its conversion
    succeeds, and the value has the element type of the base type. *)
Definition scalarOf (base : abi.Ty) (a : Lit) (v : Value) : Prop :=
  agrees a base /\ convertLit base a = (v, None) /\
  typeOf v = Some (elemType base).

(** A bracketed list of tokens, with the values of its tokens. *)
Definition rowOf (base : abi.Ty) (a : Lit) (vs : list Value) : Prop :=
  exists text elems, a = LArray text elems /\ Forall2 (scalarOf base) elems vs.

(** A literal of nesting depth 0, 1 or 2 that agrees with the base type,
    with the value it stands for.  At depth 2 the outer list has at least
    one row. *)
Inductive literalOf (base : abi.Ty) : Z -> Lit -> Value -> Prop :=
| literal_scalar a v :
    scalarOf base a v -> literalOf base 0 a v
| literal_row a vs :
    rowOf base a vs -> literalOf base 1 a (VSlice (elemType base) vs)
| literal_rows text rows vss :
    rows <> [] ->
    Forall2 (rowOf base) rows vss ->
    literalOf base 2 (LArray text rows)
      (VSlice (GSlice (elemType base)) (VSlice (elemType base) <$> vss)).

(** A bracketed literal of one or two levels whose tokens agree with the
    base type; the outer list of a literal of two levels may have no row. *)
Definition arrayLiteral (base : abi.Ty) (d : Z) (a : Lit) : Prop :=
  (d = 1 /\ exists vs, rowOf base a vs) \/
  (d = 2 /\ exists text rows vss,
     a = LArray text rows /\ Forall2 (rowOf base) rows vss).

(** A literal that agrees with a declared parameter: the parameter has a
    base kind of the interface under at most two array levels. *)
Definition validArg (input : abi.Argument) (a : Lit) (v : Value) : Prop :=
  exists base d,
    baseType (abi.Type_ input) = Done base /\
    arrayLevel (abi.Type_ input) = Done d /\
    scalarKind (abi.T base) = true /\
    literalOf base d a v.

End Literals.

(** A stream without a function-name event, as the events of the arguments
    of a call are. *)
Definition isFunctionName (e : event) : bool :=
  match e with
  | OnFunctionName _ => true
  | _ => false
  end.

(** The events that can hand a value on: the tokens and the closing
    bracket. *)
Definition closesArg (e : event) : bool :=
  match e with
  | OnInt _ | OnBool _ | OnString _ | OnHex _ | OnArrayEnd => true
  | _ => false
  end.

Definition isArgumentEnd (e : event) : bool :=
  match e with
  | OnArgumentEnd => true
  | _ => false
  end.

(** The shape of the argument events of any call text, and of any prefix of
    them: no function name, and [OnArgumentEnd] exactly after a token or a
    closing bracket.  [after] tells whether the event before the first one
    was a token or a closing bracket. *)
Fixpoint bracketed (after : bool) (es : list event) : bool :=
  match es with
  | [] => true
  | e :: es' =>
      negb (isFunctionName e) && Bool.eqb (isArgumentEnd e) after &&
      bracketed (closesArg e) es'
  end.

(** The output holds no more values than the method has parameters. *)
Definition bounded (m : abi.Method) (l : methodListener) : Prop :=
  method l = Some m /\ (length (args l) <= length (abi.Inputs m))%nat.

(** An open stack belongs to the current parameter and is no deeper than
    its array levels, of which there are at most two. *)
Definition stackTyped (m : abi.Method) (l : methodListener) : Prop :=
  curArray l <> [] ->
  exists input d,
    index (abi.Inputs m) (curArg l) = Done input /\
    arrayLevel (abi.Type_ input) = Done d /\
    len (curArray l) <= d /\ d <= 2.

(** Between arguments: the output is no longer than the argument index. *)
Definition settled (m : abi.Method) (l : methodListener) : Prop :=
  len (args l) <= curArg l /\ stackTyped m l.

(** Right after a value went to the output: the index is about to move. *)
Definition pending (m : abi.Method) (l : methodListener) : Prop :=
  curArray l = [] /\ len (args l) <= curArg l + 1 /\
  curArg l + 1 <= len (abi.Inputs m).

(** The invariant of the walk over the argument events. *)
Definition invariant (m : abi.Method) (after : bool) (l : methodListener) : Prop :=
  bounded m l /\
  (err l = None ->
   if after then pending m l \/ (curArray l <> [] /\ settled m l)
   else settled m l).

(** Two listeners that differ at most in the contents of the frames. *)
Definition sameButFrames (l l' : methodListener) : Prop :=
  curArg l' = curArg l /\ method l' = method l /\ args l' = args l /\
  err l' = err l /\ length (curArray l') = length (curArray l).

(** The listener at parameter [i] of the method [m], with no error and the
    given stack, level and output. *)
Definition at_ (c : Contract) (m : abi.Method) (i : Z) (frames : list Value)
    (mx : Z) (out : list Value) : methodListener :=
  MkListener c i frames mx (Some m) out None.

(** The number of slice levels of a Go type. *)
Fixpoint sliceDepth (t : GoType) : nat :=
  match t with
  | GSlice e => S (sliceDepth e)
  | _ => O
  end.

(** The two array kinds of [abi.Type]. *)
Definition isArrayKind (k : abi.TyKind) : bool :=
  match k with
  | abi.SliceTy | abi.ArrayTy => true
  | _ => false
  end.

(** One array level around a type: a slice ([T[]]) or an array ([T[n]]),
    with the [Size] the type carries. *)
Record Wrapper : Type := MkWrapper { wrapsSlice : bool; wrapSize : Z }.

Definition wrapOne (w : Wrapper) (t : abi.Ty) : abi.Ty :=
  abi.MkTy (if wrapsSlice w then abi.SliceTy else abi.ArrayTy)
           (wrapSize w) (Some t).

(** The array levels [ws], outermost first, around a type. *)
Definition wrapAll (ws : list Wrapper) (t : abi.Ty) : abi.Ty :=
  foldr wrapOne t ws.

(** A value as Go can hold it: every element of a slice has the element
    type of the slice, or the slice is a [[]interface{}], and is itself
    such a value. *)
Fixpoint wellFormed (v : Value) : Prop :=
  match v with
  | VSlice elem xs =>
      (fix all (xs : list Value) : Prop :=
         match xs with
         | [] => True
         | x :: xs' =>
             (elem = GInterface \/ typeOf x = Some elem) /\
             wellFormed x /\ all xs'
         end) xs
  | _ => True
  end.

(** The frames and the output hold only such values. *)
Definition holdsWellFormed (l : methodListener) : Prop :=
  Forall wellFormed (curArray l) /\ Forall wellFormed (args l).

(** The conversion functions return only such values. *)
Definition wellFormedConversion `{Conversion} : Prop :=
  forall (base : abi.Ty) (a : Lit) (v : Value),
    convertLit base a = (v, None) -> wellFormed v.

(** Whether the last event of a stream was a token or a closing bracket
    ([after] for the empty stream). *)
Definition afterOf (after : bool) (es : list event) : bool :=
  match last es with
  | Some e => closesArg e
  | None => after
  end.

(** * Properties *)

(** ** Arithmetic and slices *)

Arguments int_wrap : simpl never.

Lemma int_wrap_small (z : Z) : - 2 ^ 63 <= z < 2 ^ 63 -> int_wrap z = z.
Proof.
  intros Hz. unfold int_wrap.
  rewrite Z.mod_small by lia. lia.
Qed.

Lemma size_switch {A} (z : Z) (a8 a16 a32 a64 ad : A) :
  match z with 8 => a8 | 16 => a16 | 32 => a32 | 64 => a64 | _ => ad end =
  if z =? 8 then a8 else if z =? 16 then a16
  else if z =? 32 then a32 else if z =? 64 then a64 else ad.
Proof.
  destruct z as [|p|p]; try reflexivity.
  do 7 (destruct p as [p|p|]; try reflexivity).
Qed.

Lemma index_Done {A} (s : list A) (i : Z) (x : A) :
  index s i = Done x <-> 0 <= i /\ s !! Z.to_nat i = Some x.
Proof.
  unfold index. destruct (Z.ltb_spec i 0).
  - split; [discriminate | lia].
  - destruct (s !! Z.to_nat i) eqn:E; split; intros Hx.
    + split; [lia | congruence].
    + destruct Hx as [_ Hx]. congruence.
    + discriminate.
    + destruct Hx as [_ Hx]. discriminate.
Qed.

Lemma index_in_range {A} (s : list A) (i : Z) (x : A) :
  index s i = Done x -> 0 <= i < len s.
Proof.
  intros [Hi Hx]%index_Done. apply lookup_lt_Some in Hx.
  unfold len. lia.
Qed.

Lemma index_out_of_range {A} (s : list A) (i : Z) :
  len s <= i -> index s i = Panics IndexOutOfRange.
Proof.
  intros Hi. unfold index, len in *.
  destruct (Z.ltb_spec i 0); [reflexivity|].
  rewrite lookup_ge_None_2 by lia. reflexivity.
Qed.

(** ** The walk *)

Lemma bind_Done_r {A} (o : outcome A) : (a ← o; Done a) = o.
Proof. destruct o; reflexivity. Qed.

Section WalkFacts.
Context `{Conversion}.

Lemma walk_app (es1 es2 : list event) (l : methodListener) :
  walk (es1 ++ es2) l = l' ← walk es1 l; walk es2 l'.
Proof.
  revert l. induction es1 as [|e es1 IH]; intros l; [reflexivity|].
  simpl. destruct (handle e l) as [l'|p]; simpl; [apply IH | reflexivity].
Qed.

Lemma walk_one (e : event) (l : methodListener) : walk [e] l = handle e l.
Proof. simpl. apply bind_Done_r. Qed.

Lemma walk_cons (e : event) (es : list event) (l : methodListener) :
  walk (e :: es) l = l' ← handle e l; walk es l'.
Proof. reflexivity. Qed.

(** Every handler but [EnterFuncName] starts with [if l.err == nil]. *)
Lemma handle_after_error (e : event) (l : methodListener) :
  err l <> None -> isFunctionName e = false -> handle e l = Done l.
Proof.
  intros He Hf. destruct (err l) eqn:E; [|congruence].
  destruct e; simpl in *; try discriminate;
    unfold EnterArg, ExitArg, EnterIntArg, EnterBoolArg, EnterStringArg,
      EnterHexArg, EnterArrayArg, ExitArrayArg; rewrite E; reflexivity.
Qed.

Lemma walk_after_error (es : list event) (l : methodListener) :
  err l <> None -> forallb (fun e => negb (isFunctionName e)) es = true ->
  walk es l = Done l.
Proof.
  intros He. induction es as [|e es IH]; intros Hes; [reflexivity|].
  simpl in Hes. apply andb_true_iff in Hes as [He1 Hes].
  simpl. rewrite handle_after_error; [|assumption|].
  - simpl. auto.
  - destruct (isFunctionName e); [discriminate | reflexivity].
Qed.

(** [EnterFuncName] has no such test, but it never panics and never
    clears the error. *)
Lemma EnterFuncName_after_error (text : string) (l : methodListener) :
  err l <> None ->
  exists l', EnterFuncName text l = Done l' /\ err l' <> None /\
             curArg l' = curArg l /\ curArray l' = curArray l /\
             maxArrayLevel l' = maxArrayLevel l /\ args l' = args l /\
             contract l' = contract l.
Proof.
  intros He. unfold EnterFuncName.
  destruct (decide (text = "constructor")).
  - eexists; split; [reflexivity|]. simpl. auto 10.
  - destruct (abi.Methods (Abi (contract l)) !! text).
    + eexists; split; [reflexivity|]. simpl. auto 10.
    + eexists; split; [reflexivity|]. simpl. auto 10.
Qed.

End WalkFacts.

(** ** Resolution of the function name *)

(** C8: [EnterFuncName] resolves the reserved name [constructor] to the
    constructor of the interface and any other name by exact lookup among
    the declared methods; a name that is neither gets the unknown-method
    error.  Each case is given with the listener that results, field by
    field: the resolved method is stored in [method] and nothing else
    changes; for an unknown name the error is stored in [err], [method] is
    left as it was, and nothing else changes. *)
Theorem function_name_resolution (text : string) (l : methodListener) :
  (text = "constructor" ->
   EnterFuncName text l =
     Done (MkListener (contract l) (curArg l) (curArray l) (maxArrayLevel l)
             (Some (abi.Constructor (Abi (contract l)))) (args l) (err l))) /\
  (forall m, text <> "constructor" ->
   abi.Methods (Abi (contract l)) !! text = Some m ->
   EnterFuncName text l =
     Done (MkListener (contract l) (curArg l) (curArray l) (maxArrayLevel l)
             (Some m) (args l) (err l))) /\
  (text <> "constructor" ->
   abi.Methods (Abi (contract l)) !! text = None ->
   EnterFuncName text l =
     Done (MkListener (contract l) (curArg l) (curArray l) (maxArrayLevel l)
             (method l) (args l) (Some (ErrUnknownMethod text)))).
Proof.
  unfold EnterFuncName. repeat split.
  - intros ->. reflexivity.
  - intros m Hn Hm. destruct (decide (text = "constructor")); [contradiction|].
    rewrite Hm. reflexivity.
  - intros Hn Hm. destruct (decide (text = "constructor")); [contradiction|].
    rewrite Hm. reflexivity.
Qed.

Lemma function_name_resolution_witness :
  EnterFuncName "constructor" (newMethodListener Samples.token) =
    Done (MkListener Samples.token 0 [] 0
            (Some (abi.MkMethod "" [])) [] None) /\
  EnterFuncName "f" (newMethodListener Samples.token) =
    Done (MkListener Samples.token 0 [] 0
            (Some (abi.MkMethod "f" [abi.MkArgument "" Samples.uint256]))
            [] None) /\
  EnterFuncName "F" (newMethodListener Samples.token) =
    Done (MkListener Samples.token 0 [] 0 None []
            (Some (ErrUnknownMethod "F"))).
Proof.
  split; [|split].
  - apply (proj1 (function_name_resolution "constructor"
                    (newMethodListener Samples.token))).
    reflexivity.
  - apply (proj1 (proj2 (function_name_resolution "f"
                           (newMethodListener Samples.token)))).
    + discriminate.
    + vm_compute. reflexivity.
  - apply (proj2 (proj2 (function_name_resolution "F"
                           (newMethodListener Samples.token)))).
    + discriminate.
    + vm_compute. reflexivity.
Defined.

(** ** The sticky error *)

(** With the error slot set, a stream without a function-name event is
    drained with no change at all; and whatever the events are, none
    panics, the slot stays set, and the argument index, the array stack and
    the output list are not touched. *)
Lemma sticky_error_drains `{Conversion} (es : list event) (l : methodListener) :
  err l <> None ->
  (forallb (fun e => negb (isFunctionName e)) es = true -> walk es l = Done l) /\
  (exists l', walk es l = Done l' /\ err l' <> None /\
              curArg l' = curArg l /\ curArray l' = curArray l /\
              maxArrayLevel l' = maxArrayLevel l /\ args l' = args l).
Proof.
  intros He. split; [apply walk_after_error; assumption|].
  revert l He. induction es as [|e es IH]; intros l He.
  - exists l. simpl. auto 10.
  - destruct (isFunctionName e) eqn:Ef.
    + destruct e; try discriminate. simpl.
      destruct (EnterFuncName_after_error text l He)
        as (l1 & -> & He1 & <- & <- & <- & <- & _).
      simpl. apply IH. assumption.
    + simpl. rewrite handle_after_error by assumption. simpl.
      apply IH. assumption.
Qed.

(** ** The type switches

    For a base kind of the interface every switch of the listener picks the
    case of [elemType]. *)

Ltac by_kind base :=
  unfold elemType, emptySlice;
  destruct (abi.T base) eqn:?; try discriminate;
  rewrite ?size_switch;
  repeat (destruct (abi.Size base =? _)); reflexivity.

Lemma makeArray_level1 (base : abi.Ty) :
  scalarKind (abi.T base) = true ->
  makeArray base 1 = (VSlice (elemType base) [], None).
Proof. intros Hk. unfold makeArray. simpl. by_kind base. Qed.

Lemma makeArray_level2 (base : abi.Ty) :
  scalarKind (abi.T base) = true ->
  makeArray base 2 = (VSlice (GSlice (elemType base)) [], None).
Proof. intros Hk. unfold makeArray. simpl. by_kind base. Qed.

Lemma makeArray_deep (base : abi.Ty) (level : Z) :
  level <> 1 -> level <> 2 ->
  makeArray base level = (VNil, Some (ErrUnhandledNestingLevel level)).
Proof.
  intros H1 H2. unfold makeArray.
  destruct (Z.eqb_spec level 2); [contradiction|].
  destruct (Z.eqb_spec level 1); [contradiction|]. reflexivity.
Qed.

Lemma pushArg_in_array (l : methodListener) (arg : Value) (base : abi.Ty) :
  len (curArray l) <> 0 -> curBaseType l = Done base ->
  scalarKind (abi.T base) = true ->
  pushArg l arg = pushLast (elemType base) l arg.
Proof.
  intros Hlen Hb Hk. unfold pushArg.
  destruct (Z.eqb_spec (len (curArray l)) 0); [contradiction|].
  rewrite Hb. simpl. by_kind base.
Qed.

(** ** A value of the wrong type *)

(** C6, as stated, fails: a boolean pushed into a [[]uint8] frame makes the
    type assertion of [pushArg] panic; no error is stored. *)
Lemma pushArg_mismatch_panics_here :
  curArray opened = [VSlice (GInt Uint8) []] /\
  typeOf (VBool true) <> Some (GInt Uint8) /\
  pushArg opened (VBool true) = Panics TypeAssertionFailed.
Proof.
  split; [reflexivity|]. split; [discriminate|]. vm_compute. reflexivity.
Qed.

(** C6 (amended): when the value handed to [pushArg] has a type other than
    the element type of the innermost frame, [pushArg] panics on a failed
    type assertion: the walk is unwound and no error is stored. *)
Theorem pushArg_mismatch_panics (l : methodListener) (arg : Value)
    (base : abi.Ty) (frames : list Value) (elem : GoType) (xs : list Value) :
  curBaseType l = Done base ->
  scalarKind (abi.T base) = true ->
  curArray l = frames ++ [VSlice elem xs] ->
  len (curArray l) <= maxInt ->
  typeOf arg <> Some elem ->
  pushArg l arg = Panics TypeAssertionFailed.
Proof.
  intros Hb Hk Hf Hlen Ht.
  assert (Hn : len (curArray l) = len frames + 1).
  { rewrite Hf. unfold len. rewrite length_app. simpl. lia. }
  rewrite (pushArg_in_array l arg base); [|unfold len in *; lia|assumption..].
  unfold pushLast.
  rewrite int_wrap_small by (unfold maxInt, len in *; lia).
  assert (Hi : index (curArray l) (len (curArray l) - 1) = Done (VSlice elem xs)).
  { apply index_Done. split; [unfold len in *; lia|].
    rewrite Hn, Hf. replace (Z.to_nat (len frames + 1 - 1)) with (length frames)
      by (unfold len; lia).
    rewrite lookup_app_r by lia. rewrite Nat.sub_diag. reflexivity. }
  rewrite Hi. simpl. unfold appendTyped. simpl.
  destruct (decide (elem = elemType base)) as [->|]; [|reflexivity].
  simpl. unfold assertType.
  destruct (decide (typeOf arg = Some (elemType base))); [contradiction|].
  reflexivity.
Qed.

Lemma pushArg_mismatch_panics_witness :
  pushArg opened (VString "one") = Panics TypeAssertionFailed.
Proof.
  apply (pushArg_mismatch_panics opened (VString "one") Samples.uint8 []
           (GInt Uint8) []).
  - reflexivity.
  - reflexivity.
  - reflexivity.
  - vm_compute. discriminate.
  - discriminate.
Defined.

(** ** Frames *)

Lemma index_last {A} (s : list A) (x : A) :
  len (s ++ [x]) <= maxInt ->
  index (s ++ [x]) (int_wrap (len (s ++ [x]) - 1)) = Done x.
Proof.
  intros Hlen. unfold len, maxInt in *. rewrite length_app in *. simpl in *.
  rewrite int_wrap_small by lia.
  apply index_Done. split; [lia|].
  replace (Z.to_nat _) with (length s + 0)%nat by lia.
  rewrite lookup_app_r by lia.
  replace (length s + 0 - length s)%nat with 0%nat by lia. reflexivity.
Qed.

Lemma store_last {A} (s : list A) (x y : A) :
  len (s ++ [x]) <= maxInt ->
  store (s ++ [x]) (int_wrap (len (s ++ [x]) - 1)) y = Done (s ++ [y]).
Proof.
  intros Hlen. unfold store, len, maxInt in *. rewrite length_app in *.
  simpl in *. rewrite int_wrap_small by lia.
  destruct (Z.ltb_spec (Z.of_nat (length s + 1) - 1) 0); [lia|].
  destruct (Z.leb_spec (Z.of_nat (length s + 1))
              (Z.of_nat (length s + 1) - 1)); [lia|].
  simpl. f_equal.
  replace (Z.to_nat _) with (length s + 0)%nat by lia.
  rewrite insert_app_r. reflexivity.
Qed.

Lemma pushLast_last (l : methodListener) (frames : list Value)
    (elem : GoType) (xs : list Value) (v : Value) :
  curArray l = frames ++ [VSlice elem xs] ->
  len (curArray l) <= maxInt ->
  typeOf v = Some elem ->
  pushLast elem l v = Done (set_curArray l (frames ++ [VSlice elem (xs ++ [v])])).
Proof.
  intros Hf Hlen Ht. unfold pushLast. rewrite Hf in *.
  rewrite index_last by assumption. simpl.
  unfold appendTyped. simpl.
  destruct (decide (elem = elem)); [|contradiction]. simpl.
  unfold assertType. destruct (decide (typeOf v = Some elem)); [|contradiction].
  simpl. rewrite store_last by assumption. reflexivity.
Qed.

Lemma agrees_scalarKind (a : Lit) (base : abi.Ty) :
  agrees a base -> scalarKind (abi.T base) = true.
Proof.
  destruct a; simpl; intros Ha; try contradiction;
    repeat (destruct Ha as [Ha|Ha]); rewrite Ha; reflexivity.
Qed.

Section Tokens.
Context `{Conversion}.

(** The four token handlers do the same: convert against the base type
    of the current parameter, then store the error or push the value. *)
Lemma walk_token (a : Lit) (l : methodListener) :
  (forall text elems, a <> LArray text elems) ->
  walk (litEvents a) l =
    match err l with
    | Some _ => Done l
    | None => base ← curBaseType l; pushConverted l (convertLit base a)
    end.
Proof.
  intros Ha. destruct a; simpl; rewrite ?bind_Done_r;
    try reflexivity.
  exfalso. eapply Ha. reflexivity.
Qed.

Lemma EnterArg_in_range (l : methodListener) (m : abi.Method)
    (input : abi.Argument) :
  err l = None -> method l = Some m ->
  index (abi.Inputs m) (curArg l) = Done input ->
  EnterArg l = Done l.
Proof.
  intros He Hm Hi. unfold EnterArg, methodInputs. rewrite He, Hm. simpl.
  apply index_in_range in Hi.
  destruct (Z.leb_spec (len (abi.Inputs m)) (curArg l)); [lia|reflexivity].
Qed.

Lemma curBaseType_Done (l : methodListener) (m : abi.Method)
    (input : abi.Argument) (base : abi.Ty) :
  method l = Some m ->
  index (abi.Inputs m) (curArg l) = Done input ->
  baseType (abi.Type_ input) = Done base ->
  curBaseType l = Done base.
Proof.
  intros Hm Hi Hb. unfold curBaseType, methodInputs. rewrite Hm. simpl.
  rewrite Hi. simpl. assumption.
Qed.

End Tokens.

Lemma joinLevel1_scalarKind (base : abi.Ty) (l : methodListener) (parent child : Z) :
  scalarKind (abi.T base) = true ->
  joinLevel1 base l parent child = joinLast (GSlice (elemType base)) l parent child.
Proof. intros Hk. unfold joinLevel1. by_kind base. Qed.

Lemma litEvents_array (text : string) (elems : list Lit) :
  litEvents (LArray text elems) =
    OnArrayStart text :: flat_map argEvents elems ++ [OnArrayEnd].
Proof. reflexivity. Qed.

Lemma argEvents_eq (a : Lit) :
  argEvents a = [OnArgumentStart] ++ litEvents a ++ [OnArgumentEnd].
Proof. reflexivity. Qed.

Lemma literalOf_cases `{Conversion} (base : abi.Ty) (d : Z) (a : Lit) (v : Value) :
  literalOf base d a v ->
  (d = 0 /\ scalarOf base a v) \/
  (d = 1 /\ exists vs, rowOf base a vs /\ v = VSlice (elemType base) vs) \/
  (d = 2 /\ exists text rows vss,
     a = LArray text rows /\ rows <> [] /\ Forall2 (rowOf base) rows vss /\
     v = VSlice (GSlice (elemType base)) (VSlice (elemType base) <$> vss)).
Proof.
  intros [a' v' Ha|a' vs Ha|text rows vss Hne Hall].
  - left. auto.
  - right. left. eauto.
  - right. right. split; [reflexivity|]. eauto 10.
Qed.

(** ** One argument

    The listener is at parameter [i] of the resolved method [m], with no
    error; the parameter has base type [base] and [d] array levels. *)

Section Argument.
Context `{Conversion}.
Variables (c : Contract) (m : abi.Method) (i : Z).
Variables (input : abi.Argument) (base : abi.Ty) (d : Z).
Hypothesis Hinput : index (abi.Inputs m) i = Done input.
Hypothesis Hbase : baseType (abi.Type_ input) = Done base.
Hypothesis Hlevel : arrayLevel (abi.Type_ input) = Done d.

Lemma at_EnterArg frames mx out :
  EnterArg (at_ c m i frames mx out) = Done (at_ c m i frames mx out).
Proof. eapply EnterArg_in_range; [reflexivity..|exact Hinput]. Qed.

Lemma at_curBaseType frames mx out :
  curBaseType (at_ c m i frames mx out) = Done base.
Proof. eapply curBaseType_Done; [reflexivity|exact Hinput|exact Hbase]. Qed.

Lemma at_ExitArg_inside frames mx out :
  frames <> [] -> ExitArg (at_ c m i frames mx out) = Done (at_ c m i frames mx out).
Proof.
  intros Hf. unfold ExitArg. simpl.
  destruct frames; [contradiction|reflexivity].
Qed.

Lemma at_ExitArg_outside mx out :
  i < maxInt ->
  ExitArg (at_ c m i [] mx out) = Done (MkListener c (i + 1) [] mx (Some m) out None).
Proof.
  intros Hi. unfold ExitArg. simpl. unfold set_curArg. simpl.
  apply index_in_range in Hinput.
  rewrite int_wrap_small by (unfold maxInt in Hi; lia). reflexivity.
Qed.

(** A token outside any array goes to the output as it is. *)
Lemma walk_token_outside a v mx out :
  (forall text elems, a <> LArray text elems) ->
  convertLit base a = (v, None) ->
  walk (litEvents a) (at_ c m i [] mx out) = Done (at_ c m i [] mx (out ++ [v])).
Proof.
  intros Ha Hc. rewrite walk_token by assumption. simpl.
  rewrite at_curBaseType. simpl. rewrite Hc. reflexivity.
Qed.

(** A token inside an array goes to the innermost frame. *)
Lemma walk_token_inside a v frames xs mx out :
  scalarOf base a v ->
  len (frames ++ [VSlice (elemType base) xs]) <= maxInt ->
  walk (argEvents a) (at_ c m i (frames ++ [VSlice (elemType base) xs]) mx out) =
    Done (at_ c m i (frames ++ [VSlice (elemType base) (xs ++ [v])]) mx out).
Proof.
  intros (Ha & Hc & Ht) Hlen.
  assert (Htok : forall text elems, a <> LArray text elems).
  { intros text elems ->. exact Ha. }
  rewrite argEvents_eq, walk_app, walk_one. cbn [handle].
  rewrite at_EnterArg. cbn [mbind outcome_bind].
  rewrite walk_app, walk_token by assumption. cbn [err at_].
  rewrite at_curBaseType. cbn [mbind outcome_bind]. rewrite Hc.
  cbn [pushConverted].
  rewrite (pushArg_in_array _ _ base).
  - erewrite pushLast_last; [|reflexivity|exact Hlen|exact Ht].
    cbn [mbind outcome_bind]. rewrite walk_one. cbn [handle].
    apply at_ExitArg_inside. destruct frames; discriminate.
  - simpl. unfold len. rewrite length_app. simpl. lia.
  - apply at_curBaseType.
  - eapply agrees_scalarKind. exact Ha.
Qed.

Lemma walk_tokens_inside elems vs frames mx out : forall xs,
  Forall2 (scalarOf base) elems vs ->
  (length frames <= 1)%nat ->
  walk (flat_map argEvents elems)
       (at_ c m i (frames ++ [VSlice (elemType base) xs]) mx out) =
    Done (at_ c m i (frames ++ [VSlice (elemType base) (xs ++ vs)]) mx out).
Proof.
  intros xs Hall Hf. revert xs.
  induction Hall as [|a v elems vs Ha Hall IH]; intros xs.
  - simpl. rewrite app_nil_r. reflexivity.
  - change (flat_map argEvents (a :: elems))
      with (argEvents a ++ flat_map argEvents elems).
    rewrite walk_app.
    rewrite (walk_token_inside a v) by
      (try assumption; unfold len, maxInt; rewrite length_app; simpl; lia).
    simpl. rewrite IH. rewrite <- app_assoc. reflexivity.
Qed.

(** *** Opening and closing levels *)

Lemma at_EnterArrayArg_new text mx out :
  EnterArrayArg text (at_ c m i [] mx out) =
    Done (openLevels base (Z.to_nat d) (at_ c m i [] d out)).
Proof.
  unfold EnterArrayArg, methodInputs. cbn [err method at_ mbind outcome_bind curArg].
  pose proof (index_in_range _ _ _ Hinput) as Hi.
  destruct (Z.leb_spec (len (abi.Inputs m)) i); [lia|].
  rewrite Hinput. cbn [mbind outcome_bind]. rewrite Hbase, Hlevel. reflexivity.
Qed.

Lemma at_EnterArrayArg_extend text frames mx out :
  frames <> [] ->
  EnterArrayArg text (at_ c m i frames mx out) =
    Done (openLevels base (Z.to_nat (int_wrap (d - len frames)))
            (at_ c m i frames mx out)).
Proof.
  intros Hf.
  unfold EnterArrayArg, methodInputs. cbn [err method at_ mbind outcome_bind curArg].
  pose proof (index_in_range _ _ _ Hinput) as Hi.
  destruct (Z.leb_spec (len (abi.Inputs m)) i); [lia|].
  rewrite Hinput. cbn [mbind outcome_bind]. rewrite Hbase, Hlevel.
  cbn [mbind outcome_bind curArray].
  destruct frames; [contradiction|reflexivity].
Qed.

Hypothesis Hkind : scalarKind (abi.T base) = true.

Lemma openLevels_one frames mx out :
  openLevels base 1 (at_ c m i frames mx out) =
    at_ c m i (frames ++ [VSlice (elemType base) []]) mx out.
Proof.
  cbn [openLevels]. change (Z.of_nat 1) with 1.
  rewrite makeArray_level1 by assumption. reflexivity.
Qed.

Lemma openLevels_two mx out :
  openLevels base 2 (at_ c m i [] mx out) =
    at_ c m i [VSlice (GSlice (elemType base)) []; VSlice (elemType base) []] mx out.
Proof.
  cbn [openLevels]. change (Z.of_nat 2) with 2. change (Z.of_nat 1) with 1.
  rewrite makeArray_level2 by assumption.
  cbn [set_curArray curArray at_ contract curArg maxArrayLevel method args err].
  rewrite makeArray_level1 by assumption. reflexivity.
Qed.

(** The last frame open is the whole argument. *)
Lemma at_ExitArrayArg_top x mx out :
  ExitArrayArg (at_ c m i [x] mx out) = Done (at_ c m i [] mx (out ++ [x])).
Proof.
  unfold ExitArrayArg, popLast, slice_to, len. cbn.
  rewrite int_wrap_small by lia. reflexivity.
Qed.

(** A finished row goes into the list of rows. *)
Lemma at_ExitArrayArg_join rows xs out :
  ExitArrayArg
    (at_ c m i [VSlice (GSlice (elemType base)) rows; VSlice (elemType base) xs] 2 out) =
  Done (at_ c m i [VSlice (GSlice (elemType base)) (rows ++ [VSlice (elemType base) xs])]
            2 out).
Proof.
  unfold ExitArrayArg, len. cbn [err at_ curArray length maxArrayLevel].
  change (Z.of_nat 2) with 2. change (2 =? 1) with false. cbv iota.
  rewrite at_curBaseType. cbn [mbind outcome_bind].
  change (2 + 1) with 3.
  rewrite (int_wrap_small 3) by lia. change (3 - 2) with 1.
  change (2 - 2) with 0. change (2 - 1) with 1.
  rewrite (int_wrap_small 1), (int_wrap_small 0) by lia.
  change (1 =? 1) with true. cbv iota.
  rewrite joinLevel1_scalarKind by assumption.
  unfold joinLast, index, store, len. cbn [curArray at_ length].
  change (0 <? 0) with false. change (1 <? 0) with false. cbv iota.
  change (Z.to_nat 0) with 0%nat. change (Z.to_nat 1) with 1%nat.
  cbn [lookup list_lookup mbind outcome_bind assertSlice].
  destruct (decide (GSlice (elemType base) = GSlice (elemType base)));
    [|contradiction].
  cbn [mbind outcome_bind].
  unfold assertType. cbn [typeOf].
  destruct (decide (Some (GSlice (elemType base)) = Some (GSlice (elemType base))));
    [|contradiction].
  cbn [mbind outcome_bind orb]. change (Z.of_nat 2 <=? 0) with false.
  cbv iota. cbn [mbind outcome_bind].
  unfold popLast, slice_to, len. simpl. reflexivity.
Qed.

(** *** Rows *)

Lemma walk_array text elems l :
  walk (argEvents (LArray text elems)) l =
    l0 ← EnterArg l;
    l1 ← EnterArrayArg text l0;
    l2 ← walk (flat_map argEvents elems) l1;
    l3 ← ExitArrayArg l2;
    ExitArg l3.
Proof.
  rewrite argEvents_eq, walk_app, walk_one. cbn [handle].
  destruct (EnterArg l) as [l0|]; [|reflexivity]. cbn [mbind outcome_bind].
  rewrite litEvents_array, <- app_comm_cons, walk_cons. cbn [handle].
  destruct (EnterArrayArg text l0) as [l1|]; [|reflexivity].
  cbn [mbind outcome_bind]. rewrite <- app_assoc, walk_app.
  destruct (walk (flat_map argEvents elems) l1) as [l2|]; [|reflexivity].
  cbn [mbind outcome_bind app]. rewrite walk_cons. cbn [handle].
  destruct (ExitArrayArg l2) as [l3|]; [|reflexivity].
  cbn [mbind outcome_bind]. apply walk_one.
Qed.

(** An argument of one array level. *)
Lemma walk_row_top a vs mx out :
  d = 1 -> i < maxInt -> rowOf base a vs ->
  walk (argEvents a) (at_ c m i [] mx out) =
    Done (MkListener c (i + 1) [] 1 (Some m)
            (out ++ [VSlice (elemType base) vs]) None).
Proof.
  intros Hd Hi (text & elems & -> & Hall).
  rewrite walk_array, at_EnterArg. cbn [mbind outcome_bind].
  rewrite at_EnterArrayArg_new, Hd. cbn [mbind outcome_bind].
  change (Z.to_nat 1) with 1%nat. rewrite openLevels_one.
  rewrite (walk_tokens_inside elems vs [] 1 out []) by (simpl; auto).
  cbn [mbind outcome_bind app].
  rewrite at_ExitArrayArg_top. cbn [mbind outcome_bind].
  apply at_ExitArg_outside. assumption.
Qed.

(** A row of an argument of two array levels: the first one finds its
    frame open, a later one opens it. *)
Lemma walk_row_inside a vs rows out :
  d = 2 -> rowOf base a vs ->
  forall frames,
    frames = [VSlice (GSlice (elemType base)) rows] \/
    frames = [VSlice (GSlice (elemType base)) rows; VSlice (elemType base) []] ->
    walk (argEvents a) (at_ c m i frames 2 out) =
      Done (at_ c m i [VSlice (GSlice (elemType base))
                   (rows ++ [VSlice (elemType base) vs])] 2 out).
Proof.
  intros Hd (text & elems & -> & Hall) frames Hf.
  rewrite walk_array, at_EnterArg. cbn [mbind outcome_bind].
  rewrite at_EnterArrayArg_extend by (destruct Hf as [->| ->]; discriminate).
  rewrite Hd. cbn [mbind outcome_bind].
  assert (Hopen :
    openLevels base (Z.to_nat (int_wrap (2 - len frames))) (at_ c m i frames 2 out) =
    at_ c m i ([VSlice (GSlice (elemType base)) rows] ++ [VSlice (elemType base) []])
        2 out).
  { destruct Hf as [->| ->]; unfold len; simpl length.
    - change (2 - Z.of_nat 1) with 1. rewrite int_wrap_small by lia.
      change (Z.to_nat 1) with 1%nat. apply openLevels_one.
    - change (2 - Z.of_nat 2) with 0. rewrite int_wrap_small by lia.
      reflexivity. }
  rewrite Hopen.
  rewrite (walk_tokens_inside elems vs _ 2 out []) by (simpl; auto).
  cbn [mbind outcome_bind app].
  rewrite at_ExitArrayArg_join. cbn [mbind outcome_bind].
  apply at_ExitArg_inside. discriminate.
Qed.

Lemma walk_rows_inside rows vss out : forall rows0,
  d = 2 -> Forall2 (rowOf base) rows vss ->
  walk (flat_map argEvents rows)
       (at_ c m i [VSlice (GSlice (elemType base)) rows0] 2 out) =
    Done (at_ c m i [VSlice (GSlice (elemType base))
                 (rows0 ++ (VSlice (elemType base) <$> vss))] 2 out).
Proof.
  intros rows0 Hd Hall. revert rows0.
  induction Hall as [|a vs rows vss Ha Hall IH]; intros rows0.
  - simpl. rewrite app_nil_r. reflexivity.
  - change (flat_map argEvents (a :: rows))
      with (argEvents a ++ flat_map argEvents rows).
    rewrite walk_app, (walk_row_inside a vs rows0 out Hd Ha) by auto.
    cbn [mbind outcome_bind]. rewrite IH, <- app_assoc. reflexivity.
Qed.

(** An argument of two array levels, with at least one row. *)
Lemma walk_rows_top text rows vss mx out :
  d = 2 -> i < maxInt -> rows <> [] -> Forall2 (rowOf base) rows vss ->
  walk (argEvents (LArray text rows)) (at_ c m i [] mx out) =
    Done (MkListener c (i + 1) [] 2 (Some m)
            (out ++ [VSlice (GSlice (elemType base))
                       (VSlice (elemType base) <$> vss)]) None).
Proof.
  intros Hd Hi Hne Hall.
  destruct Hall as [|a vs rows vss Ha Hall]; [contradiction|].
  rewrite walk_array, at_EnterArg. cbn [mbind outcome_bind].
  rewrite at_EnterArrayArg_new, Hd. cbn [mbind outcome_bind].
  change (Z.to_nat 2) with 2%nat. rewrite openLevels_two.
  change (flat_map argEvents (a :: rows))
    with (argEvents a ++ flat_map argEvents rows).
  rewrite walk_app, (walk_row_inside a vs [] out Hd Ha) by auto.
  cbn [mbind outcome_bind app].
  rewrite (walk_rows_inside rows vss out _ Hd Hall).
  cbn [mbind outcome_bind app fmap list_fmap].
  rewrite at_ExitArrayArg_top. cbn [mbind outcome_bind].
  apply at_ExitArg_outside. assumption.
Qed.

(** The empty list for an argument of two array levels: both frames are
    opened, the closing bracket closes the inner one only, and the
    argument is never finished. *)
Lemma walk_no_rows text mx out :
  d = 2 ->
  walk (argEvents (LArray text [])) (at_ c m i [] mx out) =
    Done (at_ c m i [VSlice (GSlice (elemType base)) [VSlice (elemType base) []]]
              2 out).
Proof.
  intros Hd.
  rewrite walk_array, at_EnterArg. cbn [mbind outcome_bind].
  rewrite at_EnterArrayArg_new, Hd. cbn [mbind outcome_bind].
  change (Z.to_nat 2) with 2%nat. rewrite openLevels_two.
  cbn [flat_map walk mbind outcome_bind].
  rewrite at_ExitArrayArg_join. cbn [mbind outcome_bind app].
  apply at_ExitArg_inside. discriminate.
Qed.

(** *** Any literal that agrees with the parameter *)

Lemma walk_argument a v mx out :
  i < maxInt -> literalOf base d a v ->
  exists mx',
    walk (argEvents a) (at_ c m i [] mx out) =
      Done (MkListener c (i + 1) [] mx' (Some m) (out ++ [v]) None).
Proof.
  intros Hi Hlit.
  destruct (literalOf_cases _ _ _ _ Hlit)
    as [(Hd & Ha)|[(Hd & vs & Ha & ->)|(Hd & text & rows & vss & -> & Hne & Hall & ->)]].
  - exists mx. destruct Ha as (Ha & Hc & Ht).
    rewrite argEvents_eq, walk_app, walk_one. cbn [handle].
    rewrite at_EnterArg. cbn [mbind outcome_bind].
    rewrite walk_app, (walk_token_outside a v).
    + cbn [mbind outcome_bind]. rewrite walk_one. cbn [handle].
      apply at_ExitArg_outside. assumption.
    + intros text elems ->. exact Ha.
    + exact Hc.
  - exists 1. apply walk_row_top; auto.
  - exists 2. apply walk_rows_top; auto.
Qed.

End Argument.

(** ** A whole call *)

Lemma index_middle {A} (before after : list A) (x : A) :
  index (before ++ x :: after) (len before) = Done x.
Proof.
  apply index_Done. unfold len. split; [lia|].
  rewrite Nat2Z.id. rewrite lookup_app_r by lia.
  rewrite Nat.sub_diag. reflexivity.
Qed.

Lemma EnterFuncName_resolves (c : Contract) (name : string) (m : abi.Method) :
  resolves c name m ->
  EnterFuncName name (newMethodListener c) =
    Done (MkListener c 0 [] 0 (Some m) [] None).
Proof.
  intros [[-> ->]|[Hn Hm]]; unfold EnterFuncName; simpl.
  - reflexivity.
  - destruct (decide (name = "constructor")); [contradiction|].
    rewrite Hm. reflexivity.
Qed.

Section Call.
Context `{Conversion}.

Lemma walk_arguments (c : Contract) (m : abi.Method) :
  forall inputs actuals vs,
    Forall3 validArg inputs actuals vs ->
    forall before mx out,
      abi.Inputs m = before ++ inputs ->
      len (abi.Inputs m) <= maxInt ->
      exists mx',
        walk (flat_map argEvents actuals)
             (MkListener c (len before) [] mx (Some m) out None) =
          Done (MkListener c (len (abi.Inputs m)) [] mx' (Some m)
                  (out ++ vs) None).
Proof.
  intros inputs actuals vs Hall.
  induction Hall as [|input a v inputs actuals vs Hv Hall IH];
    intros before mx out Hin Hlen.
  - exists mx. rewrite Hin, !app_nil_r. reflexivity.
  - destruct Hv as (base & d & Hb & Hd & Hk & Hlit).
    assert (Hi : index (abi.Inputs m) (len before) = Done input).
    { rewrite Hin. apply index_middle. }
    assert (Hlt : len before < maxInt).
    { apply index_in_range in Hi. lia. }
    destruct (walk_argument c m (len before) input base d Hi Hb Hd Hk
                a v mx out Hlt Hlit) as [mx1 Hw].
    unfold at_ in Hw.
    change (flat_map argEvents (a :: actuals))
      with (argEvents a ++ flat_map argEvents actuals).
    rewrite walk_app, Hw. cbn [mbind outcome_bind].
    destruct (IH (before ++ [input]) mx1 (out ++ [v])) as [mx2 Hw2].
    + rewrite <- app_assoc. exact Hin.
    + exact Hlen.
    + exists mx2. replace (len before + 1) with (len (before ++ [input])).
      * rewrite Hw2, <- app_assoc. reflexivity.
      * unfold len. rewrite length_app. simpl. lia.
Qed.

Lemma validArg_length (inputs : list abi.Argument) (actuals : list Lit)
    (vs : list Value) :
  Forall3 validArg inputs actuals vs -> length vs = length inputs.
Proof. intros Hall. induction Hall; simpl; congruence. Qed.

Lemma literalOf_shape (base : abi.Ty) (d : Z) (a : Lit) (v : Value) :
  literalOf base d a v -> hasShape (Z.to_nat d) (elemType base) v.
Proof.
  assert (Hrow : forall elems vs,
             Forall2 (scalarOf base) elems vs ->
             Forall (hasShape 0 (elemType base)) vs).
  { intros elems vs Hall. induction Hall as [|? ? ? ? (_ & _ & Ht)];
      constructor; assumption. }
  intros [a' v' (_ & _ & Ht)|a' vs (text & elems & -> & Hall)
         |text rows vss Hne Hall].
  - exact Ht.
  - exists vs. split; [reflexivity|]. eapply Hrow. exact Hall.
  - eexists. split; [reflexivity|].
    clear Hne. induction Hall as [|r vs rows vss (t & elems & -> & Hr) _ IH];
      constructor; [|exact IH].
    exists vs. split; [reflexivity|]. eapply Hrow. exact Hr.
Qed.

Lemma validArg_shape (inputs : list abi.Argument) (actuals : list Lit)
    (vs : list Value) :
  Forall3 validArg inputs actuals vs ->
  Forall2 (fun input v =>
             exists base d,
               baseType (abi.Type_ input) = Done base /\
               arrayLevel (abi.Type_ input) = Done d /\
               hasShape (Z.to_nat d) (elemType base) v)
          inputs vs.
Proof.
  intros Hall. induction Hall as [|input a v inputs actuals vs Hv _ IH];
    constructor; [|exact IH].
  destruct Hv as (base & d & Hb & Hd & _ & Hlit).
  exists base, d. repeat split; try assumption.
  apply literalOf_shape with (a := a). exact Hlit.
Qed.

End Call.

(** ** Valid calls *)

(** C1, as stated, fails: a parameter of three array levels is refused
    whatever the literal, here [cube([[[1]]])] against [cube(uint8[][][])]. *)
Lemma three_levels_refused :
  Samples.run "cube" [LArray "[[[1]]]" [LArray "[[1]]" [LArray "[1]" [LInt "1"]]]]
  = Done ([], Some (ErrUnhandledNestingLevel 3)).
Proof. vm_compute. reflexivity. Qed.

(** C1 (amended): for a call whose function name resolves and whose
    arguments are as many as the declared parameters, each parameter being
    of a base kind of the interface under at most two array levels and each
    literal agreeing with its parameter (a literal of two levels having at
    least one row), the parse ends with no panic and no error, the output
    is the list of the values of the literals, as long as the parameter
    list, and each value is nested as deep as its parameter. *)
Theorem valid_call_parses `{Conversion} (c : Contract) (name : string)
    (m : abi.Method) (actuals : list Lit) (vs : list Value) :
  resolves c name m ->
  len (abi.Inputs m) <= maxInt ->
  Forall3 validArg (abi.Inputs m) actuals vs ->
  exists l,
    parseCall c name actuals = Done l /\
    err l = None /\
    args l = vs /\
    length (args l) = length (abi.Inputs m) /\
    Forall2 (fun input v =>
               exists base d,
                 baseType (abi.Type_ input) = Done base /\
                 arrayLevel (abi.Type_ input) = Done d /\
                 hasShape (Z.to_nat d) (elemType base) v)
            (abi.Inputs m) (args l).
Proof.
  intros Hm Hlen Hall.
  destruct (walk_arguments c m _ _ _ Hall [] 0 [] eq_refl Hlen) as [mx Hw].
  eexists. split.
  - unfold parseCall, callEvents. rewrite walk_cons. cbn [handle].
    rewrite (EnterFuncName_resolves c name m Hm). cbn [mbind outcome_bind].
    exact Hw.
  - cbn [err args app]. split; [reflexivity|]. split; [reflexivity|]. split.
    + eapply validArg_length. exact Hall.
    + eapply validArg_shape. exact Hall.
Qed.

(** Literals of the samples: the conversions are evaluated. *)
Ltac concrete_scalar :=
  split; [simpl; auto 6|split; [vm_compute; reflexivity|reflexivity]].
Ltac concrete_row :=
  eexists _, _; split; [reflexivity|];
  repeat (constructor; [concrete_scalar|]); constructor.

Lemma valid_call_parses_witness :
  exists l,
    parseCall (H := SpecConversion.conversion) Samples.token "grid"
      [LArray "[[1,2],[3]]"
         [LArray "[1,2]" [LInt "1"; LInt "2"]; LArray "[3]" [LInt "3"]]]
      = Done l /\
    err l = None /\
    args l = [VSlice (GSlice (GInt Uint8))
                [VSlice (GInt Uint8) [VInt Uint8 1; VInt Uint8 2];
                 VSlice (GInt Uint8) [VInt Uint8 3]]].
Proof.
  destruct (@valid_call_parses SpecConversion.conversion Samples.token "grid"
              (Samples.signature "grid" [Samples.sliceOf (Samples.sliceOf Samples.uint8)])
              [LArray "[[1,2],[3]]"
                 [LArray "[1,2]" [LInt "1"; LInt "2"]; LArray "[3]" [LInt "3"]]]
              [VSlice (GSlice (GInt Uint8))
                 [VSlice (GInt Uint8) [VInt Uint8 1; VInt Uint8 2];
                  VSlice (GInt Uint8) [VInt Uint8 3]]])
    as (l & Hl & He & Ha & _).
  - right. split; [discriminate|]. vm_compute. reflexivity.
  - vm_compute. discriminate.
  - constructor; [|constructor].
    exists Samples.uint8, 2. split; [reflexivity|]. split; [reflexivity|].
    split; [reflexivity|].
    apply (literal_rows Samples.uint8 "[[1,2],[3]]" _
             [[VInt Uint8 1; VInt Uint8 2]; [VInt Uint8 3]]); [discriminate|].
    repeat (constructor; [concrete_row|]). constructor.
  - exists l. auto.
Defined.

(** ** Too many arguments *)

Lemma Lit_nested_ind (P : Lit -> Prop) :
  (forall t, P (LInt t)) -> (forall t, P (LBool t)) ->
  (forall t, P (LString t)) -> (forall t, P (LHex t)) ->
  (forall t elems, Forall P elems -> P (LArray t elems)) ->
  forall a, P a.
Proof.
  intros HI HB HS HH HA. fix IH 1.
  intros [t|t|t|t|t elems]; [apply HI|apply HB|apply HS|apply HH|].
  apply HA. induction elems as [|e elems IHe]; constructor.
  - apply IH.
  - exact IHe.
Qed.

Lemma argEvents_no_function_name (a : Lit) :
  forallb (fun e => negb (isFunctionName e)) (argEvents a) = true.
Proof.
  induction a as [t|t|t|t|t elems IH] using Lit_nested_ind; try reflexivity.
  rewrite argEvents_eq, litEvents_array, !forallb_app. cbn.
  rewrite forallb_app. cbn. rewrite !andb_true_r.
  induction IH as [|e elems He _ IHe]; [reflexivity|].
  change (flat_map argEvents (e :: elems))
    with (argEvents e ++ flat_map argEvents elems).
  rewrite forallb_app, He, IHe. reflexivity.
Qed.

Lemma arguments_no_function_name (actuals : list Lit) :
  forallb (fun e => negb (isFunctionName e)) (flat_map argEvents actuals) = true.
Proof.
  induction actuals as [|a actuals IH]; [reflexivity|].
  change (flat_map argEvents (a :: actuals))
    with (argEvents a ++ flat_map argEvents actuals).
  rewrite forallb_app, argEvents_no_function_name, IH. reflexivity.
Qed.

(** ** The sticky error over a call *)

Lemma forallb_drop {A} (f : A -> bool) (s : list A) : forall k,
  forallb f s = true -> forallb f (drop k s) = true.
Proof.
  induction s as [|x s IH]; intros [|k] Hs; try exact Hs; try reflexivity.
  simpl in *. apply andb_true_iff in Hs as [_ Hs]. apply IH. exact Hs.
Qed.

Lemma forallb_take {A} (f : A -> bool) (s : list A) : forall k,
  forallb f s = true -> forallb f (take k s) = true.
Proof.
  induction s as [|x s IH]; intros [|k] Hs; try reflexivity.
  simpl in *. apply andb_true_iff in Hs as [Hx Hs]. rewrite Hx. simpl.
  apply IH. exact Hs.
Qed.

(** C3: once the error slot is set at some point of the walk over the
    events of a call, every event that follows is a no-op: its handler
    returns the very same listener (no field is changed, there is no
    panic), so the listener is the same at every later point and the rest
    of the stream is consumed to completion, the parse ending with that
    listener. *)
Theorem error_is_sticky `{Conversion} (c : Contract) (name : string)
    (actuals : list Lit) (k : nat) (l : methodListener) :
  walk (take k (callEvents name actuals)) (newMethodListener c) = Done l ->
  err l <> None ->
  Forall (fun e => handle e l = Done l) (drop k (callEvents name actuals)) /\
  (forall j, walk (take j (drop k (callEvents name actuals))) l = Done l) /\
  parseCall c name actuals = Done l.
Proof.
  intros Hw He.
  assert (Hrest : forallb (fun e => negb (isFunctionName e))
                    (drop k (callEvents name actuals)) = true).
  { destruct k as [|k].
    - injection Hw as <-. contradiction He. reflexivity.
    - unfold callEvents. cbn [drop]. apply forallb_drop.
      apply arguments_no_function_name. }
  split; [|split].
  - apply Forall_forall. intros e Hin. apply handle_after_error; [exact He|].
    rewrite forallb_forall in Hrest. apply list_elem_of_In in Hin.
    specialize (Hrest e Hin). destruct (isFunctionName e);
      [discriminate|reflexivity].
  - intros j. apply walk_after_error; [exact He|].
    apply forallb_take. exact Hrest.
  - unfold parseCall.
    rewrite <- (take_drop k (callEvents name actuals)), walk_app, Hw.
    cbn [mbind outcome_bind]. apply walk_after_error; assumption.
Qed.

Lemma error_is_sticky_witness :
  let l := MkListener Samples.token 0 [] 0
             (Some (abi.MkMethod "g" [abi.MkArgument "" Samples.boolean]))
             [] (Some SpecConversion.formatError) in
  Forall (fun e => handle (H := SpecConversion.conversion) e l = Done l)
    (drop 3 (callEvents "g" [LBool "notabool"; LArray "[1]" [LInt "1"]])) /\
  (forall j,
     walk (H := SpecConversion.conversion)
       (take j (drop 3 (callEvents "g" [LBool "notabool"; LArray "[1]" [LInt "1"]])))
       l = Done l) /\
  parseCall (H := SpecConversion.conversion) Samples.token "g"
    [LBool "notabool"; LArray "[1]" [LInt "1"]] = Done l.
Proof.
  intros l.
  apply (@error_is_sticky SpecConversion.conversion Samples.token "g"
           [LBool "notabool"; LArray "[1]" [LInt "1"]] 3 l).
  - vm_compute. reflexivity.
  - discriminate.
Defined.

(** [EnterArg] past the last parameter. *)
Lemma EnterArg_too_many (l : methodListener) (m : abi.Method) :
  err l = None -> method l = Some m -> len (abi.Inputs m) <= curArg l ->
  EnterArg l = Done (set_err l (ErrTooManyArguments (len (abi.Inputs m)))).
Proof.
  intros He Hm Hn. unfold EnterArg, methodInputs. rewrite He, Hm. simpl.
  destruct (Z.leb_spec (len (abi.Inputs m)) (curArg l)); [reflexivity|lia].
Qed.

(** C4, as stated, fails: the first error is the one that stays, so a call
    with too many arguments whose first argument is already refused ends
    with that error, here [g(1,2)] against [g(bool)]. *)
Lemma first_error_wins :
  (length [LInt "1"; LInt "2"] > length [Samples.boolean])%nat /\
  Samples.run "g" [LInt "1"; LInt "2"]
  = Done ([], Some (ErrUnexpectedType Samples.boolean)).
Proof. split; [simpl; lia|]. vm_compute. reflexivity. Qed.

(** C4 (amended): when the function name resolves to a method of [n]
    parameters, each of a base kind of the interface under at most two
    array levels, and the first [n] arguments are literals that agree with
    them (nested as deep as their parameter, every token converted without
    error to a value of the element type, a literal of two levels having
    at least one row), a call with any further argument ends, whatever
    follows, with the too-many-arguments error and the [n] values in the
    output; and whenever [EnterArg] finds no error and the argument index
    at [n] or beyond, it sets that error. *)
Theorem too_many_arguments `{Conversion} (c : Contract) (name : string)
    (m : abi.Method) (actuals : list Lit) (vs : list Value)
    (extra : Lit) (more : list Lit) :
  resolves c name m ->
  len (abi.Inputs m) <= maxInt ->
  Forall3 validArg (abi.Inputs m) actuals vs ->
  (exists l,
     parseCall c name (actuals ++ extra :: more) = Done l /\
     err l = Some (ErrTooManyArguments (len (abi.Inputs m))) /\
     args l = vs) /\
  (forall l, err l = None -> method l = Some m ->
     len (abi.Inputs m) <= curArg l ->
     EnterArg l =
       Done (MkListener (contract l) (curArg l) (curArray l) (maxArrayLevel l)
               (method l) (args l)
               (Some (ErrTooManyArguments (len (abi.Inputs m)))))).
Proof.
  intros Hm Hlen Hall. split; [|intros l; apply EnterArg_too_many].
  destruct (walk_arguments c m _ _ _ Hall [] 0 [] eq_refl Hlen) as [mx Hw].
  eexists. split.
  - unfold parseCall, callEvents. rewrite walk_cons. cbn [handle].
    rewrite (EnterFuncName_resolves c name m Hm). cbn [mbind outcome_bind].
    rewrite flat_map_app, walk_app.
    change (len []) with 0 in Hw. rewrite Hw. cbn [mbind outcome_bind app].
    assert (Hrest :
      forallb (fun e => negb (isFunctionName e))
        (flat_map argEvents (extra :: more)) = true)
      by apply arguments_no_function_name.
    change (flat_map argEvents (extra :: more))
      with (OnArgumentStart ::
              (litEvents extra ++ [OnArgumentEnd]) ++ flat_map argEvents more)
      in *.
    rewrite walk_cons. cbn [handle].
    erewrite EnterArg_too_many; [|reflexivity|reflexivity|simpl; lia].
    cbn [mbind outcome_bind]. apply walk_after_error; [discriminate|].
    exact Hrest.
  - simpl. auto.
Qed.

Lemma too_many_arguments_witness :
  exists l,
    parseCall (H := SpecConversion.conversion) Samples.token "f"
      ([LInt "1"] ++ LInt "2" :: []) = Done l /\
    err l = Some (ErrTooManyArguments 1) /\
    args l = [VBigInt 1].
Proof.
  apply (@too_many_arguments SpecConversion.conversion Samples.token "f"
           (Samples.signature "f" [Samples.uint256])
           [LInt "1"] [VBigInt 1] (LInt "2") []).
  - right. split; [discriminate|]. vm_compute. reflexivity.
  - vm_compute. discriminate.
  - constructor; [|constructor].
    exists Samples.uint256, 0. split; [reflexivity|]. split; [reflexivity|].
    split; [reflexivity|]. apply literal_scalar. concrete_scalar.
Defined.

(** ** Array levels *)

(** C2, as stated, fails: for a parameter of three array levels the first
    [EnterArrayArg] opens no frame and stores an error. *)
Lemma third_level_not_opened :
  arrayLevel (Samples.sliceOf (Samples.sliceOf (Samples.sliceOf Samples.uint8)))
    = Done 3 /\
  EnterArrayArg "[[[1]]]" atCube
    = Done (set_err (set_maxArrayLevel atCube 3) (ErrUnhandledNestingLevel 3)).
Proof. split; vm_compute; reflexivity. Qed.

(** C2 (amended): array nesting is supported to depth two.  For a
    parameter of a base kind of the interface, the first [EnterArrayArg] of
    an argument opens one frame of elements when the parameter has one array
    level, and a frame of rows and a frame of elements when it has two; with
    three levels or more it opens none and stores the unhandled-nesting-level
    error.  A bracketed literal of one or two levels whose tokens agree with
    the base type is walked with no panic and no error. *)
Theorem array_levels_supported `{Conversion} (c : Contract) (m : abi.Method)
    (i : Z) (input : abi.Argument) (base : abi.Ty) (d : Z) :
  index (abi.Inputs m) i = Done input ->
  baseType (abi.Type_ input) = Done base ->
  arrayLevel (abi.Type_ input) = Done d ->
  scalarKind (abi.T base) = true ->
  (forall text mx out,
     (d = 1 ->
      EnterArrayArg text (at_ c m i [] mx out) =
        Done (at_ c m i [VSlice (elemType base) []] 1 out)) /\
     (d = 2 ->
      EnterArrayArg text (at_ c m i [] mx out) =
        Done (at_ c m i [VSlice (GSlice (elemType base)) [];
                         VSlice (elemType base) []] 2 out)) /\
     (3 <= d ->
      EnterArrayArg text (at_ c m i [] mx out) =
        Done (set_err (at_ c m i [] d out) (ErrUnhandledNestingLevel d)))) /\
  (forall a mx out,
     i < maxInt -> arrayLiteral base d a ->
     exists l, walk (argEvents a) (at_ c m i [] mx out) = Done l /\ err l = None).
Proof.
  intros Hi Hb Hd Hk. split.
  - intros text mx out.
    rewrite (at_EnterArrayArg_new c m i input base d Hi Hb Hd).
    repeat split.
    + intros ->. change (Z.to_nat 1) with 1%nat.
      rewrite openLevels_one by assumption. reflexivity.
    + intros ->. change (Z.to_nat 2) with 2%nat.
      rewrite openLevels_two by assumption. reflexivity.
    + intros H3. destruct (Z.to_nat d) as [|n] eqn:En; [lia|].
      cbn [openLevels]. rewrite <- En, Z2Nat.id by lia.
      rewrite makeArray_deep by lia. reflexivity.
  - intros a mx out Hlt [(-> & vs & Ha)|(-> & text & rows & vss & -> & Hall)].
    + eexists. split; [eapply walk_row_top; eauto|reflexivity].
    + destruct rows as [|r rows].
      * eexists. split; [eapply walk_no_rows; eauto|reflexivity].
      * eexists. split; [eapply walk_rows_top; eauto; discriminate|reflexivity].
Qed.

Lemma array_levels_supported_witness :
  EnterArrayArg "[[1],[2]]"
    (MkListener Samples.token 0 [] 0
       (Some (Samples.signature "grid" [Samples.sliceOf (Samples.sliceOf Samples.uint8)]))
       [] None)
  = Done (MkListener Samples.token 0
            [VSlice (GSlice (GInt Uint8)) []; VSlice (GInt Uint8) []] 2
            (Some (Samples.signature "grid" [Samples.sliceOf (Samples.sliceOf Samples.uint8)]))
            [] None).
Proof.
  apply (proj1 (@array_levels_supported SpecConversion.conversion Samples.token
           (Samples.signature "grid" [Samples.sliceOf (Samples.sliceOf Samples.uint8)])
           0 (abi.MkArgument "" (Samples.sliceOf (Samples.sliceOf Samples.uint8)))
           Samples.uint8 2 eq_refl eq_refl eq_refl eq_refl)
         "[[1],[2]]" 0 []).
  reflexivity.
Defined.

(** ** Round trips *)

(** C5 at its failing input: for [grid(uint8[][])] the literal [[]], a list
    of no rows, should give one container of length 0; the parse gives no
    argument at all and no error (the closing bracket is taken for the end
    of a row, see [walk_no_rows]). *)
Lemma no_rows_no_argument :
  Samples.run "grid" [LArray "[]" []] = Done ([], None).
Proof. vm_compute. reflexivity. Qed.

(** ** A token for an array parameter *)

Lemma sliceDepth_nest (n : nat) (t : GoType) :
  sliceDepth (nest n t) = (n + sliceDepth t)%nat.
Proof. induction n as [|n IH]; simpl; congruence. Qed.

(** C10: a token that arrives for a parameter of one or more array levels
    while no array is open is converted against the base type of the
    parameter and its value is appended to the output as it is, with no
    error: the listener that results has that value as the last of its
    output and every other field as before.  The value has the type of one
    element, so it is not nested as deep as the parameter. *)
Theorem bare_scalar_for_array_parameter `{Conversion} (l : methodListener)
    (m : abi.Method) (input : abi.Argument) (base : abi.Ty) (d : Z)
    (a : Lit) (v : Value) :
  err l = None ->
  method l = Some m ->
  index (abi.Inputs m) (curArg l) = Done input ->
  baseType (abi.Type_ input) = Done base ->
  arrayLevel (abi.Type_ input) = Done d ->
  1 <= d ->
  curArray l = [] ->
  (forall text elems, a <> LArray text elems) ->
  convertLit base a = (v, None) ->
  walk (litEvents a) l =
    Done (MkListener (contract l) (curArg l) [] (maxArrayLevel l) (Some m)
            (args l ++ [v]) None) /\
  (typeOf v = Some (elemType base) ->
   ~ hasShape (Z.to_nat d) (elemType base) v).
Proof.
  intros He Hm Hi Hb Hd H1 Hcur Htok Hc. split.
  - rewrite walk_token by assumption. rewrite He.
    rewrite (curBaseType_Done l m input base Hm Hi Hb). cbn [mbind outcome_bind].
    rewrite Hc. cbn [pushConverted]. unfold pushArg. rewrite Hcur.
    change (len (@nil Value) =? 0) with true. cbv iota.
    unfold set_args. rewrite Hcur, Hm, He. reflexivity.
  - intros Ht Hs. destruct (Z.to_nat d) as [|n] eqn:En; [lia|].
    destruct Hs as (xs & -> & _). simpl in Ht.
    injection Ht as Ht. apply (f_equal sliceDepth) in Ht.
    simpl in Ht. rewrite sliceDepth_nest in Ht. lia.
Qed.

Lemma bare_scalar_for_array_parameter_witness :
  walk (H := SpecConversion.conversion) (litEvents (LInt "7"))
    (MkListener Samples.token 0 [] 0
       (Some (Samples.signature "setValues" [Samples.sliceOf Samples.uint8]))
       [] None)
  = Done (MkListener Samples.token 0 [] 0
            (Some (Samples.signature "setValues" [Samples.sliceOf Samples.uint8]))
            [VInt Uint8 7] None).
Proof.
  apply (proj1 (@bare_scalar_for_array_parameter SpecConversion.conversion
           (MkListener Samples.token 0 [] 0
              (Some (Samples.signature "setValues" [Samples.sliceOf Samples.uint8]))
              [] None)
           (Samples.signature "setValues" [Samples.sliceOf Samples.uint8])
           (abi.MkArgument "" (Samples.sliceOf Samples.uint8))
           Samples.uint8 1 (LInt "7") (VInt Uint8 7)
           eq_refl eq_refl eq_refl eq_refl eq_refl ltac:(lia) eq_refl
           ltac:(discriminate) ltac:(vm_compute; reflexivity))).
Defined.

(** ** Indexing the parameters *)

(** C9 at its failing input: [h([1])] against [h(uint8)].  The parameter
    has no array level, so the opening bracket opens no frame; the token
    goes to the output and the argument index moves to 1; the closing
    bracket then finds no frame and reads [l.method.Inputs[1]] of a list of
    one parameter. *)
Lemma closing_bracket_indexes_out_of_range :
  let h := Samples.signature "h" [Samples.uint8] in
  let l := MkListener Samples.token 1 [] 0 (Some h) [VInt Uint8 1] None in
  walk (H := SpecConversion.conversion)
    [OnFunctionName "h"; OnArgumentStart; OnArrayStart "[1]";
     OnArgumentStart; OnInt "1"; OnArgumentEnd]
    (newMethodListener Samples.token) = Done l /\
  index (abi.Inputs h) (curArg l) = Panics IndexOutOfRange /\
  ExitArrayArg l = Panics IndexOutOfRange /\
  parseCall (H := SpecConversion.conversion) Samples.token "h"
    [LArray "[1]" [LInt "1"]] = Panics IndexOutOfRange.
Proof. repeat split; vm_compute; reflexivity. Qed.

(** ** The output never outgrows the parameters *)

Lemma store_length {A} (s s' : list A) (i : Z) (x : A) :
  store s i x = Done s' -> length s' = length s.
Proof.
  unfold store. destruct ((i <? 0) || (len s <=? i)); [discriminate|].
  intros [= <-]. apply length_insert.
Qed.

Lemma set_curArray_same (l : methodListener) (a : list Value) :
  length a = length (curArray l) -> sameButFrames l (set_curArray l a).
Proof. intros Ha. unfold sameButFrames. simpl. auto. Qed.

Lemma joinLast_same (elem : GoType) (l l' : methodListener) (parent child : Z) :
  joinLast elem l parent child = Done l' -> sameButFrames l l'.
Proof.
  unfold joinLast.
  destruct (index (curArray l) parent) as [p|]; [|discriminate]. simpl.
  destruct (assertSlice elem p) as [xs|]; [|discriminate]. simpl.
  destruct (index (curArray l) child) as [ch|]; [|discriminate]. simpl.
  destruct (assertType elem ch) as [ch'|]; [|discriminate]. simpl.
  destruct (store _ _ _) as [a|] eqn:Es; [|discriminate]. simpl.
  intros [= <-]. apply set_curArray_same. eapply store_length. exact Es.
Qed.

Lemma joinLastIface_same (l l' : methodListener) (parent child : Z) :
  joinLastIface l parent child = Done l' -> sameButFrames l l'.
Proof.
  unfold joinLastIface.
  destruct (index (curArray l) parent) as [p|]; [|discriminate]. simpl.
  destruct (assertSlice GInterface p) as [xs|]; [|discriminate]. simpl.
  destruct (index (curArray l) child) as [ch|]; [|discriminate]. simpl.
  destruct (store _ _ _) as [a|] eqn:Es; [|discriminate]. simpl.
  intros [= <-]. apply set_curArray_same. eapply store_length. exact Es.
Qed.

Ltac by_switch base lemma :=
  destruct (abi.T base); rewrite ?size_switch;
  repeat (destruct (abi.Size base =? _)); eauto using lemma.

Lemma joinLevel1_same (base : abi.Ty) (l l' : methodListener) (parent child : Z) :
  joinLevel1 base l parent child = Done l' -> sameButFrames l l'.
Proof.
  unfold joinLevel1.
  by_switch base joinLast_same; apply joinLastIface_same.
Qed.

Lemma joinLevel2_same (base : abi.Ty) (l l' : methodListener) (parent child : Z) :
  joinLevel2 base l parent child = Done l' -> sameButFrames l l'.
Proof. unfold joinLevel2. by_switch base joinLast_same. Qed.

Lemma pushLast_same (elem : GoType) (l l' : methodListener) (arg : Value) :
  pushLast elem l arg = Done l' -> sameButFrames l l'.
Proof.
  unfold pushLast.
  destruct (index (curArray l) _) as [f|]; [|discriminate]. simpl.
  destruct (appendTyped elem f arg) as [f'|]; [|discriminate]. simpl.
  destruct (store _ _ _) as [a|] eqn:Es; [|discriminate]. simpl.
  intros [= <-]. apply set_curArray_same. eapply store_length. exact Es.
Qed.

(** [pushArg] either appends to the output, outside any array, or changes
    the contents of a frame. *)
Lemma pushArg_cases (l l' : methodListener) (arg : Value) :
  pushArg l arg = Done l' ->
  (curArray l = [] /\ l' = set_args l (args l ++ [arg])) \/
  (curArray l <> [] /\ sameButFrames l l').
Proof.
  unfold pushArg. destruct (curArray l) as [|f fs] eqn:Ec.
  - intros [= <-]. left. auto.
  - change (len (f :: fs) =? 0) with (Z.pos (Pos.of_succ_nat (length fs)) =? 0).
    cbn [Z.eqb]. intros Hp. right. split; [discriminate|].
    rewrite <- Ec in *. clear Ec.
    destruct (curBaseType l) as [base|]; [|discriminate]. simpl in Hp.
    revert Hp. by_switch base pushLast_same.
    all: destruct (index (curArray l) _) as [fr|]; [|discriminate]; simpl;
      destruct (appendIface fr arg) as [fr'|]; [|discriminate]; simpl;
      destruct (store _ _ _) as [a|] eqn:Es; [|discriminate]; simpl;
      intros [= <-]; apply set_curArray_same; eapply store_length; exact Es.
Qed.

(** [openLevels] touches the stack and the error only, and without an
    error it has opened all of at most two levels. *)
Lemma openLevels_fields (base : abi.Ty) (n : nat) : forall l,
  let l' := openLevels base n l in
  curArg l' = curArg l /\ method l' = method l /\ args l' = args l /\
  (err l = None -> err l' = None ->
   length (curArray l') = (length (curArray l) + n)%nat /\ (n <= 2)%nat).
Proof.
  induction n as [|n IH]; intros l; cbn zeta.
  - simpl. repeat split; lia.
  - cbn [openLevels].
    assert (Herr : forall e,
      curArg (set_err l e) = curArg l /\ method (set_err l e) = method l /\
      args (set_err l e) = args l /\
      (err l = None -> err (set_err l e) = None ->
       length (curArray (set_err l e)) = (length (curArray l) + S n)%nat /\
       (S n <= 2)%nat)).
    { intros e. simpl. repeat (split; [reflexivity|]). intros _ He'.
      discriminate He'. }
    destruct (makeArray base (Z.of_nat (S n))) as [array [e|]] eqn:Em;
      [apply Herr|].
    assert (Hn : (S n <= 2)%nat).
    { destruct (Z.eq_dec (Z.of_nat (S n)) 1) as [E1|N1]; [lia|].
      destruct (Z.eq_dec (Z.of_nat (S n)) 2) as [E2|N2]; [lia|].
      rewrite makeArray_deep in Em by assumption. discriminate Em. }
    specialize (IH (set_curArray l (curArray l ++ [array]))).
    cbn zeta in IH. destruct IH as (Ha & Hm & Hg & IH).
    simpl in *. repeat (split; [assumption|]).
    intros He He'. destruct (IH He He') as [Hl _].
    rewrite length_app in Hl. simpl in Hl. lia.
Qed.

Lemma len_nil_inv {A} (s : list A) : len s = 0 -> s = [].
Proof. destruct s; [reflexivity|]. unfold len. simpl. lia. Qed.

Lemma len_pos {A} (s : list A) : s <> [] -> 1 <= len s.
Proof. destruct s; [contradiction|]. unfold len. simpl. lia. Qed.

Section Invariant.
Context `{Conversion}.
Variable m : abi.Method.
Hypothesis Hmax : len (abi.Inputs m) <= maxInt.

Lemma invariant_after_error (after after' : bool) (l : methodListener) :
  invariant m after l -> err l <> None -> invariant m after' l.
Proof. intros [Hb _] He. split; [exact Hb|]. intros E. contradiction. Qed.

Lemma invariant_set_err (after after' : bool) (l : methodListener) (e : error) :
  invariant m after l -> invariant m after' (set_err l e).
Proof. intros [Hb _]. split; [exact Hb|]. simpl. discriminate. Qed.

Lemma EnterArg_invariant (l l' : methodListener) :
  invariant m false l -> EnterArg l = Done l' -> invariant m false l'.
Proof.
  intros Hinv He. unfold EnterArg in He. destruct (err l) eqn:Ee.
  - injection He as <-. exact Hinv.
  - destruct (methodInputs l) as [inputs|]; [|discriminate]. simpl in He.
    destruct (len inputs <=? curArg l); injection He as <-.
    + eapply invariant_set_err. exact Hinv.
    + exact Hinv.
Qed.

Lemma ExitArg_invariant (l l' : methodListener) :
  invariant m true l -> ExitArg l = Done l' -> invariant m false l'.
Proof.
  intros Hinv He. unfold ExitArg in He. destruct (err l) eqn:Ee.
  - injection He as <-. eapply invariant_after_error; [exact Hinv|congruence].
  - destruct Hinv as [Hb Hs]. specialize (Hs Ee).
    destruct (Z.eqb_spec (len (curArray l)) 0) as [Hz|Hz]; injection He as <-.
    + apply len_nil_inv in Hz.
      destruct Hs as [(Hc & Ha & Hn)|(Hne & _)]; [|contradiction].
      split; [exact Hb|]. intros _. split.
      * simpl. unfold maxInt, len in *. rewrite int_wrap_small by lia. lia.
      * intros Hne. simpl in Hne. contradiction.
    + destruct Hs as [(Hc & _)|(_ & Hs)].
      * rewrite Hc in Hz. contradiction.
      * split; [exact Hb|]. intros _. exact Hs.
Qed.

Lemma token_invariant (a : Lit) (l l' : methodListener) :
  (forall text elems, a <> LArray text elems) ->
  invariant m false l -> walk (litEvents a) l = Done l' -> invariant m true l'.
Proof.
  intros Htok Hinv Hw. rewrite walk_token in Hw by assumption.
  destruct (err l) eqn:Ee.
  - injection Hw as <-. eapply invariant_after_error; [exact Hinv|congruence].
  - destruct Hinv as [[Hm Hlen] Hs]. destruct (Hs Ee) as [Ha Hst].
    unfold curBaseType, methodInputs in Hw. rewrite Hm in Hw. simpl in Hw.
    destruct (index (abi.Inputs m) (curArg l)) as [input|] eqn:Ei;
      [|discriminate].
    simpl in Hw. destruct (baseType (abi.Type_ input)) as [base|]; [|discriminate].
    simpl in Hw. destruct (convertLit base a) as [v [e|]]; simpl in Hw.
    + injection Hw as <-. split; [split; assumption|]. simpl. discriminate.
    + apply pushArg_cases in Hw as [(Hc & ->)|(Hne & Hsame)].
      * apply index_in_range in Ei. split.
        -- split; [exact Hm|]. simpl. rewrite length_app. simpl.
           unfold len in *. lia.
        -- intros _. left. split; [exact Hc|]. simpl. unfold len in *.
           rewrite length_app. simpl. lia.
      * destruct Hsame as (Hca & Hme & Har & Her & Hl). split.
        -- split; [congruence|]. rewrite Har. exact Hlen.
        -- intros _. right.
           assert (Hne' : curArray l' <> []).
           { intros E. rewrite E in Hl. destruct (curArray l);
               [contradiction|discriminate]. }
           split; [exact Hne'|]. split; [rewrite Har, Hca; exact Ha|].
           intros _. destruct (Hst Hne) as (input' & d & Hi' & Hd & Hld & H2).
           exists input', d. rewrite Hca. unfold len in *. rewrite Hl. auto.
Qed.

Lemma EnterArrayArg_invariant (text : string) (l l' : methodListener) :
  invariant m false l -> EnterArrayArg text l = Done l' -> invariant m false l'.
Proof.
  intros Hinv He. unfold EnterArrayArg in He. destruct (err l) eqn:Ee.
  - injection He as <-. exact Hinv.
  - pose proof Hinv as [[Hm Hlen] Hs]. destruct (Hs Ee) as [Ha Hst].
    unfold methodInputs in He. rewrite Hm in He. simpl in He.
    destruct (len (abi.Inputs m) <=? curArg l).
    { injection He as <-. eapply invariant_set_err. exact Hinv. }
    destruct (index (abi.Inputs m) (curArg l)) as [input|] eqn:Ei;
      [|discriminate].
    simpl in He. destruct (baseType (abi.Type_ input)) as [base|]; [|discriminate].
    simpl in He. destruct (arrayLevel (abi.Type_ input)) as [d|] eqn:Ed;
      [|discriminate].
    simpl in He.
    destruct (Z.eqb_spec (len (curArray l)) 0) as [Hz|Hz]; injection He as <-.
    + pose proof (openLevels_fields base (Z.to_nat d)
                    (set_maxArrayLevel (set_curArray l []) d))
        as (Hca & Hme & Har & Hop). cbn zeta in *. simpl in Hca, Hme, Har, Hop.
      split; [split; [congruence|rewrite Har; exact Hlen]|].
      intros He'. destruct (Hop Ee He') as [Hl Hn2].
      split; [rewrite Har, Hca; exact Ha|].
      intros Hne. exists input, d. rewrite Hca.
      split; [exact Ei|]. split; [exact Ed|].
      assert (length (curArray
                (openLevels base (Z.to_nat d)
                   (set_maxArrayLevel (set_curArray l []) d))) <> 0%nat).
      { intros E. apply Hne. apply length_zero_iff_nil. exact E. }
      unfold len. lia.
    + assert (Hne : curArray l <> []).
      { intros E. rewrite E in Hz. contradiction. }
      destruct (Hst Hne) as (input' & d' & Hi' & Hd' & Hld & H2).
      rewrite Ei in Hi'. injection Hi' as <-.
      rewrite Ed in Hd'. injection Hd' as <-.
      pose proof (len_pos _ Hne) as Hpos.
      rewrite int_wrap_small by lia.
      pose proof (openLevels_fields base (Z.to_nat (d - len (curArray l))) l)
        as (Hca & Hme & Har & Hop). cbn zeta in *.
      split; [split; [congruence|rewrite Har; exact Hlen]|].
      intros He'. destruct (Hop Ee He') as [Hl _].
      split; [rewrite Har, Hca; exact Ha|].
      intros _. exists input, d. rewrite Hca.
      split; [exact Ei|]. split; [exact Ed|]. unfold len in *. lia.
Qed.

Lemma ExitArrayArg_invariant (l l' : methodListener) :
  invariant m false l -> ExitArrayArg l = Done l' -> invariant m true l'.
Proof.
  intros Hinv He. unfold ExitArrayArg in He. destruct (err l) eqn:Ee.
  - injection He as <-. eapply invariant_after_error; [exact Hinv|congruence].
  - pose proof Hinv as [[Hm Hlen] Hs]. destruct (Hs Ee) as [Ha Hst].
    destruct (Z.eqb_spec (len (curArray l)) 1) as [H1|H1].
    + destruct (index (curArray l) 0) as [top|]; [|discriminate]. simpl in He.
      unfold popLast, slice_to in He. simpl in He. rewrite H1 in He.
      change (1 - 1) with 0 in He. rewrite int_wrap_small in He by lia.
      simpl in He. injection He as <-.
      assert (Hne : curArray l <> []).
      { intros E. rewrite E in H1. discriminate. }
      destruct (Hst Hne) as (input & d & Hi & _).
      apply index_in_range in Hi.
      split.
      * split; [exact Hm|]. simpl. rewrite length_app. simpl.
        unfold len in *. lia.
      * intros _. left. split; [reflexivity|]. simpl. unfold len in *.
        rewrite length_app. simpl. lia.
    + destruct (curBaseType l) as [base|]; [|discriminate]. simpl in He.
      match type of He with
      | (?j ≫= _) = _ => destruct j as [l1|] eqn:Ej; [|discriminate]
      end.
      simpl in He.
      assert (Hsame : sameButFrames l l1).
      { destruct (_ =? 1) in Ej; [eapply joinLevel1_same; exact Ej|].
        destruct (_ =? 2) in Ej; [eapply joinLevel2_same; exact Ej|].
        injection Ej as <-. unfold sameButFrames. auto. }
      destruct Hsame as (Hca & Hme & Har & Her & Hl).
      unfold popLast, slice_to in He. unfold len in He, H1. rewrite Hl in He.
      destruct (curArray l) as [|f [|g fs]] eqn:Ec.
      * simpl in He. discriminate.
      * simpl in H1. contradiction.
      * assert (Hne : curArray l <> []) by (rewrite Ec; discriminate).
        destruct (Hst Hne) as (input & d & Hi & Hd & Hld & H2).
        rewrite Ec in Hld. unfold len in Hld. simpl in Hld.
        assert (fs = []) by (destruct fs; [reflexivity|simpl in Hld; lia]).
        subst fs. simpl in He. injection He as <-.
        destruct (curArray l1) as [|f1 fs1] eqn:Ec1; [discriminate|].
        change (Z.of_nat 2 - 1) with 1. rewrite int_wrap_small by lia.
        change (Z.to_nat 1) with 1%nat. simpl take.
        split; [split; [simpl; congruence|simpl; rewrite Har; exact Hlen]|].
        intros _. right. split; [simpl; discriminate|].
        split; [simpl; rewrite Har, Hca; exact Ha|].
        intros _. exists input, d. simpl. rewrite Hca. unfold len. simpl.
        split; [exact Hi|]. split; [exact Hd|]. lia.
Qed.

Lemma handle_invariant (e : event) (after : bool) (l l' : methodListener) :
  isFunctionName e = false -> isArgumentEnd e = after ->
  invariant m after l -> handle e l = Done l' ->
  invariant m (closesArg e) l'.
Proof.
  intros Hf Ha Hinv He. destruct e; simpl in *; subst after;
    try discriminate.
  - eapply EnterArg_invariant; eassumption.
  - eapply ExitArg_invariant; eassumption.
  - apply (token_invariant (LInt text) l l'); try assumption; try discriminate.
    simpl. rewrite bind_Done_r. exact He.
  - apply (token_invariant (LBool text) l l'); try assumption; try discriminate.
    simpl. rewrite bind_Done_r. exact He.
  - apply (token_invariant (LString text) l l'); try assumption; try discriminate.
    simpl. rewrite bind_Done_r. exact He.
  - apply (token_invariant (LHex text) l l'); try assumption; try discriminate.
    simpl. rewrite bind_Done_r. exact He.
  - eapply EnterArrayArg_invariant; eassumption.
  - eapply ExitArrayArg_invariant; eassumption.
Qed.

Lemma walk_invariant (es : list event) : forall after l l',
  bracketed after es = true -> invariant m after l ->
  walk es l = Done l' -> bounded m l'.
Proof.
  induction es as [|e es IH]; intros after l l' Hes Hinv Hw.
  - injection Hw as <-. apply Hinv.
  - simpl in Hes. apply andb_true_iff in Hes as [Hes Hrest].
    apply andb_true_iff in Hes as [Hf Ha].
    apply negb_true_iff in Hf. apply Bool.eqb_prop in Ha.
    rewrite walk_cons in Hw.
    destruct (handle e l) as [l1|] eqn:He; [|discriminate]. simpl in Hw.
    eapply IH; [exact Hrest| |exact Hw].
    eapply handle_invariant; eassumption.
Qed.

End Invariant.

(** The argument events of a call have the shape [bracketed] asks for. *)
Lemma bracketed_argEvents (a : Lit) : forall rest,
  bracketed false (argEvents a ++ rest) = bracketed false rest.
Proof.
  induction a as [t|t|t|t|t elems IH] using Lit_nested_ind; intros rest;
    try reflexivity.
  assert (Hel : forall rest',
            bracketed false (flat_map argEvents elems ++ rest') =
            bracketed false rest').
  { intros rest'. induction IH as [|e elems He _ IHe]; [reflexivity|].
    change (flat_map argEvents (e :: elems))
      with (argEvents e ++ flat_map argEvents elems).
    rewrite <- app_assoc, He. exact IHe. }
  rewrite argEvents_eq, litEvents_array, <- !app_assoc. cbn [app].
  rewrite <- !app_assoc. cbn [app].
  cbn [bracketed isFunctionName isArgumentEnd closesArg negb Bool.eqb andb].
  rewrite Hel. reflexivity.
Qed.

Lemma bracketed_arguments (actuals : list Lit) :
  bracketed false (flat_map argEvents actuals) = true.
Proof.
  induction actuals as [|a actuals IH]; [reflexivity|].
  change (flat_map argEvents (a :: actuals))
    with (argEvents a ++ flat_map argEvents actuals).
  rewrite bracketed_argEvents. exact IH.
Qed.

Lemma bracketed_take (es : list event) : forall k after,
  bracketed after es = true -> bracketed after (take k es) = true.
Proof.
  induction es as [|e es IH]; intros [|k] after Hes; try reflexivity.
  simpl in *. apply andb_true_iff in Hes as [Hes Hrest].
  rewrite Hes. simpl. apply IH. exact Hrest.
Qed.

Lemma walk_bracketed_after_error `{Conversion} (es : list event) :
  forall after l,
    err l <> None -> bracketed after es = true -> walk es l = Done l.
Proof.
  induction es as [|e es IH]; intros after l He Hes; [reflexivity|].
  simpl in Hes. apply andb_true_iff in Hes as [Hes Hrest].
  apply andb_true_iff in Hes as [Hf _]. apply negb_true_iff in Hf.
  rewrite walk_cons, handle_after_error by assumption. simpl.
  eapply IH; eassumption.
Qed.

(** C7: whatever the call text, valid or not, at every point of the walk
    over its events that is reached the output holds no more values than
    the resolved method has parameters (and none when no method is
    resolved). *)
Theorem output_never_exceeds_parameters `{Conversion} (c : Contract)
    (name : string) (actuals : list Lit) (k : nat) (l : methodListener) :
  (forall m, resolves c name m -> len (abi.Inputs m) <= maxInt) ->
  walk (take k (callEvents name actuals)) (newMethodListener c) = Done l ->
  match method l with
  | Some m => (length (args l) <= length (abi.Inputs m))%nat
  | None => args l = []
  end.
Proof.
  intros Hmax Hw. destruct k as [|k]; [injection Hw as <-; reflexivity|].
  unfold callEvents in Hw. cbn [take] in Hw. rewrite walk_cons in Hw.
  cbn [handle] in Hw.
  pose proof (bracketed_take _ k false (bracketed_arguments actuals)) as Hbr.
  assert (Hres : forall m, resolves c name m ->
            (length (args l) <= length (abi.Inputs m))%nat /\ method l = Some m).
  { intros m Hm. rewrite (EnterFuncName_resolves c name m Hm) in Hw.
    cbn [mbind outcome_bind] in Hw.
    assert (Hb : bounded m l).
    { eapply (walk_invariant m (Hmax m Hm) _ false); [exact Hbr| |exact Hw].
      split; [split; [reflexivity|simpl; lia]|].
      intros _. split; [simpl; unfold len; simpl; lia|]. intros Hne.
      simpl in Hne. contradiction. }
    destruct Hb as [Hme Hlen]. auto. }
  destruct (decide (name = "constructor")) as [Hn|Hn].
  - destruct (Hres (abi.Constructor (Abi c))) as [Hlen ->]; [|exact Hlen].
    left. auto.
  - destruct (abi.Methods (Abi c) !! name) as [m|] eqn:Em.
    + destruct (Hres m) as [Hlen ->]; [|exact Hlen]. right. auto.
    + unfold EnterFuncName in Hw.
      destruct (decide (name = "constructor")); [contradiction|].
      simpl in Hw. rewrite Em in Hw. cbn [mbind outcome_bind] in Hw.
      rewrite (walk_bracketed_after_error _ false) in Hw;
        [|discriminate|exact Hbr].
      injection Hw as <-. reflexivity.
Qed.

Lemma output_never_exceeds_parameters_witness :
  let l := MkListener Samples.token 1 [] 0
             (Some (Samples.signature "f" [Samples.uint256]))
             [VBigInt 1] (Some (ErrTooManyArguments 1)) in
  match method l with
  | Some m => (length (args l) <= length (abi.Inputs m))%nat
  | None => args l = []
  end.
Proof.
  intros l.
  apply (@output_never_exceeds_parameters SpecConversion.conversion
           Samples.token "f" [LInt "1"; LInt "2"] 6 l).
  - intros m [[Hn _]|[_ Hm]]; [discriminate Hn|].
    vm_compute in Hm. injection Hm as <-. vm_compute. discriminate.
  - vm_compute. reflexivity.
Defined.

(** ** The calls of the interface's documentation *)

Example transfer_call :
  Samples.run "transfer"
    [LHex "0x5FfC014343cd971B7eb70732021E26C35B744cc4"; LInt "100"]
  = Done ([VAddress [95; 252; 1; 67; 67; 205; 151; 27; 126; 183; 7; 50; 2; 30;
                     38; 195; 91; 116; 76; 196];
           VBigInt 100], None).
Proof. vm_compute. reflexivity. Qed.

Example setValues_call :
  Samples.run "setValues" [LArray "[1,2,3]" [LInt "1"; LInt "2"; LInt "3"]]
  = Done ([VSlice (GInt Uint8) [VInt Uint8 1; VInt Uint8 2; VInt Uint8 3]], None).
Proof. vm_compute. reflexivity. Qed.

Example not_a_boolean :
  Samples.run "g" [LBool "notabool"]
  = Done ([], Some SpecConversion.formatError).
Proof. vm_compute. reflexivity. Qed.

(** A boolean in a list of [uint8]: the conversion succeeds and the push
    panics. *)
Example boolean_among_integers :
  Samples.run "setValues" [LArray "[true]" [LBool "true"]]
  = Panics TypeAssertionFailed.
Proof. vm_compute. reflexivity. Qed.

(** * Further properties of the listener *)

(** ** Type introspection *)

Lemma Ty_nested_ind (P : abi.Ty -> Prop) :
  (forall k s, P (abi.MkTy k s None)) ->
  (forall k s e, P e -> P (abi.MkTy k s (Some e))) ->
  forall t, P t.
Proof.
  intros Hn Hs. fix IH 1. intros [k s [e|]].
  - apply Hs. apply IH.
  - apply Hn.
Qed.

Lemma baseType_unfold (k : abi.TyKind) (s : Z) (elem : option abi.Ty) :
  baseType (abi.MkTy k s elem) =
    if isArrayKind k then
      match elem with
      | Some e => baseType e
      | None => Panics NilDereference
      end
    else Done (abi.MkTy k s elem).
Proof. destruct k; reflexivity. Qed.

Lemma arrayLevel_unfold (k : abi.TyKind) (s : Z) (elem : option abi.Ty) :
  arrayLevel (abi.MkTy k s elem) =
    if isArrayKind k then
      match elem with
      | Some e => n ← arrayLevel e; Done (int_wrap (1 + n))
      | None => Panics NilDereference
      end
    else Done 0.
Proof. destruct k; reflexivity. Qed.

Lemma baseType_elementary (b : abi.Ty) :
  isArrayKind (abi.T b) = false -> baseType b = Done b.
Proof.
  intros Hk. destruct b as [k s e]. cbn [abi.T] in Hk.
  rewrite baseType_unfold, Hk. reflexivity.
Qed.

Lemma arrayLevel_elementary (b : abi.Ty) :
  isArrayKind (abi.T b) = false -> arrayLevel b = Done 0.
Proof.
  intros Hk. destruct b as [k s e]. cbn [abi.T] in Hk.
  rewrite arrayLevel_unfold, Hk. reflexivity.
Qed.

(** [baseType] succeeds exactly on the types that are array levels around
    a type that is not an array, and returns that type; on the other types,
    where some slice or array has no element type, it panics. *)
Theorem baseType_strips_the_wrappers (t b : abi.Ty) :
  baseType t = Done b <->
  isArrayKind (abi.T b) = false /\ exists ws, t = wrapAll ws b.
Proof.
  split.
  - revert b. induction t as [k s|k s e IH] using Ty_nested_ind; intros b;
      rewrite baseType_unfold; destruct (isArrayKind k) eqn:Ek;
      try discriminate.
    + intros [= <-]. split; [exact Ek|]. exists []. reflexivity.
    + intros Hb. destruct (IH b Hb) as [Hk [ws ->]]. split; [exact Hk|].
      exists (MkWrapper (bool_decide (k = abi.SliceTy)) s :: ws).
      destruct k; try discriminate; reflexivity.
    + intros [= <-]. split; [exact Ek|]. exists []. reflexivity.
  - intros [Hk [ws ->]]. induction ws as [|w ws IH]; cbn [wrapAll foldr].
    + destruct b as [k s e]. rewrite baseType_unfold. simpl in Hk.
      rewrite Hk. reflexivity.
    + unfold wrapOne at 1. rewrite baseType_unfold.
      destruct (wrapsSlice w); exact IH.
Qed.

(** [arrayLevel] counts the array levels around the base type. *)
Theorem arrayLevel_counts_the_wrappers (ws : list Wrapper) (b : abi.Ty) :
  isArrayKind (abi.T b) = false ->
  len ws <= maxInt ->
  arrayLevel (wrapAll ws b) = Done (len ws).
Proof.
  intros Hk. induction ws as [|w ws IH]; intros Hlen.
  - destruct b as [k s e]. cbn [wrapAll foldr]. simpl in Hk.
    rewrite arrayLevel_unfold, Hk. reflexivity.
  - cbn [wrapAll foldr]. unfold wrapOne at 1. rewrite arrayLevel_unfold.
    change (foldr wrapOne b ws) with (wrapAll ws b).
    unfold len, maxInt in *. simpl length in *.
    replace (isArrayKind (if wrapsSlice w then abi.SliceTy else abi.ArrayTy))
      with true by (destruct (wrapsSlice w); reflexivity).
    rewrite IH by lia. simpl. rewrite int_wrap_small by lia. f_equal. lia.
Qed.

Lemma arrayLevel_counts_the_wrappers_witness :
  arrayLevel (wrapAll [MkWrapper true 0; MkWrapper false 3] Samples.uint8)
  = Done 2.
Proof.
  apply (arrayLevel_counts_the_wrappers
           [MkWrapper true 0; MkWrapper false 3] Samples.uint8).
  - reflexivity.
  - vm_compute. discriminate.
Defined.

(** [baseType] and [arrayLevel] panic on the same types: one returns if
    and only if the other does. *)
Theorem introspection_fails_together (t : abi.Ty) :
  (exists b, baseType t = Done b) <-> (exists d, arrayLevel t = Done d).
Proof.
  induction t as [k s|k s e IH] using Ty_nested_ind;
    rewrite baseType_unfold, arrayLevel_unfold; destruct (isArrayKind k).
  - split; intros [? ?]; discriminate.
  - split; intros _; eexists; reflexivity.
  - split.
    + intros Hb. apply IH in Hb as [d ->]. eexists. reflexivity.
    + intros [d Hd]. apply IH. destruct (arrayLevel e) as [n|];
        [eexists; reflexivity|discriminate].
  - split; intros _; eexists; reflexivity.
Qed.

(** ** makeArray *)

(** [makeArray] in closed form: for level 1 or 2 and a base kind of the
    interface it returns, with no error, the empty slice of that many
    levels over the element type; for level 1 or 2 and another kind, nil
    with the unhandled-array-type error; for any other level, nil with the
    unhandled-nesting-level error. *)
Theorem makeArray_closed_form (base : abi.Ty) (level : Z) :
  makeArray base level =
    if (level =? 1) || (level =? 2) then
      if scalarKind (abi.T base) then
        (VSlice (nest (Z.to_nat level - 1) (elemType base)) [], None)
      else (VNil, Some (ErrUnhandledArrayType (abi.T base)))
    else (VNil, Some (ErrUnhandledNestingLevel level)).
Proof.
  destruct (Z.eqb_spec level 1) as [->|N1];
    [|destruct (Z.eqb_spec level 2) as [->|N2]]; simpl orb; cbv iota.
  - destruct (scalarKind (abi.T base)) eqn:Ek.
    + apply makeArray_level1. exact Ek.
    + unfold makeArray. simpl. destruct (abi.T base); try discriminate;
        reflexivity.
  - destruct (scalarKind (abi.T base)) eqn:Ek.
    + apply makeArray_level2. exact Ek.
    + unfold makeArray. simpl. destruct (abi.T base); try discriminate;
        reflexivity.
  - apply makeArray_deep; assumption.
Qed.

Lemma baseType_strips_the_wrappers_witness :
  baseType (wrapAll [MkWrapper true 0; MkWrapper false 3] Samples.address)
  = Done Samples.address.
Proof.
  apply (proj2 (baseType_strips_the_wrappers _ Samples.address)).
  split; [reflexivity|]. eexists. reflexivity.
Defined.

Lemma introspection_fails_together_witness :
  exists d, arrayLevel (Samples.sliceOf Samples.boolean) = Done d.
Proof.
  apply (proj1 (introspection_fails_together (Samples.sliceOf Samples.boolean))).
  exists Samples.boolean. reflexivity.
Defined.

(** ** Tokens of the wrong kind *)

(** An integer token for a parameter whose base type is not an integer
    type, and a hex token for one whose base type is not an address, a hash
    or a byte string, set the unexpected-type error, inside an array or
    not; no conversion function is asked and nothing else changes. *)
Theorem token_of_the_wrong_kind `{Conversion} (l : methodListener)
    (base : abi.Ty) (text : string) :
  err l = None ->
  curBaseType l = Done base ->
  (abi.T base <> abi.IntTy -> abi.T base <> abi.UintTy ->
   EnterIntArg text l = Done (set_err l (ErrUnexpectedType base))) /\
  (abi.T base <> abi.AddressTy -> abi.T base <> abi.HashTy ->
   abi.T base <> abi.BytesTy -> abi.T base <> abi.FixedBytesTy ->
   EnterHexArg text l = Done (set_err l (ErrUnexpectedType base))).
Proof.
  intros He Hb. split.
  - intros H1 H2. unfold EnterIntArg. rewrite He, Hb. simpl.
    destruct (abi.T base); try contradiction; reflexivity.
  - intros H1 H2 H3 H4. unfold EnterHexArg. rewrite He, Hb. simpl.
    destruct (abi.T base); try contradiction; reflexivity.
Qed.

Lemma token_of_the_wrong_kind_witness :
  EnterIntArg (H := SpecConversion.conversion) "1"
    (at_ Samples.token (Samples.signature "g" [Samples.boolean]) 0 [] 0 [])
  = Done (set_err
            (at_ Samples.token (Samples.signature "g" [Samples.boolean]) 0 [] 0 [])
            (ErrUnexpectedType Samples.boolean)).
Proof.
  apply (proj1 (@token_of_the_wrong_kind SpecConversion.conversion
                  (at_ Samples.token (Samples.signature "g" [Samples.boolean])
                       0 [] 0 [])
                  Samples.boolean "1" eq_refl eq_refl));
    discriminate.
Defined.

(** A boolean or string token is converted against whatever the base type
    of the parameter is: the handlers do not look at the kind, so outside an
    array the value the conversion returns becomes the argument. *)
Theorem boolean_and_string_tokens_unchecked `{Conversion} (c : Contract)
    (m : abi.Method) (i : Z) (input : abi.Argument) (base : abi.Ty)
    (a : Lit) (v : Value) (mx : Z) (out : list Value) :
  index (abi.Inputs m) i = Done input ->
  baseType (abi.Type_ input) = Done base ->
  i < maxInt ->
  (exists text, a = LBool text \/ a = LString text) ->
  convertLit base a = (v, None) ->
  walk (argEvents a) (at_ c m i [] mx out) =
    Done (MkListener c (i + 1) [] mx (Some m) (out ++ [v]) None).
Proof.
  intros Hi Hb Hlt [text Ha] Hc.
  rewrite argEvents_eq, walk_app, walk_one. cbn [handle].
  rewrite (at_EnterArg c m i input Hi). cbn [mbind outcome_bind].
  rewrite walk_app, (walk_token_outside c m i input base Hi Hb a v).
  - cbn [mbind outcome_bind]. rewrite walk_one. cbn [handle].
    apply (at_ExitArg_outside c m i input Hi). exact Hlt.
  - intros t elems ->. destruct Ha; discriminate.
  - exact Hc.
Qed.

Lemma boolean_and_string_tokens_unchecked_witness :
  walk (H := SpecConversion.conversion) (argEvents (LString "one"))
    (at_ Samples.token (Samples.signature "f" [Samples.uint256]) 0 [] 0 [])
  = Done (MkListener Samples.token 1 [] 0
            (Some (Samples.signature "f" [Samples.uint256]))
            [VString "one"] None).
Proof.
  apply (@boolean_and_string_tokens_unchecked SpecConversion.conversion
           Samples.token (Samples.signature "f" [Samples.uint256]) 0
           (abi.MkArgument "" Samples.uint256) Samples.uint256
           (LString "one") (VString "one") 0 []).
  - reflexivity.
  - reflexivity.
  - vm_compute. reflexivity.
  - exists "one". right. reflexivity.
  - reflexivity.
Defined.

(** ** Before and without a method *)

(** Until a function name has resolved a method, every event but the
    function name and the end of an argument dereferences the nil method:
    the walk panics. *)
Theorem no_method_no_arguments `{Conversion} (l : methodListener) (e : event) :
  method l = None -> err l = None -> curArray l = [] ->
  isFunctionName e = false -> isArgumentEnd e = false ->
  handle e l = Panics NilDereference.
Proof.
  intros Hm He Hc Hf Ha.
  destruct e; try discriminate; simpl;
    unfold EnterArg, EnterIntArg, EnterBoolArg, EnterStringArg, EnterHexArg,
      EnterArrayArg, ExitArrayArg, curBaseType, methodInputs;
    rewrite He, ?Hc, Hm; reflexivity.
Qed.

Lemma no_method_no_arguments_witness :
  handle (H := SpecConversion.conversion) (OnArrayStart "[1]")
    (newMethodListener Samples.token) = Panics NilDereference.
Proof.
  apply (@no_method_no_arguments SpecConversion.conversion); reflexivity.
Defined.

(** A call of a name that is neither [constructor] nor a declared method
    ends, whatever its arguments, with the unknown-method error, no method,
    no output and no panic. *)
Theorem unknown_method_call `{Conversion} (c : Contract) (name : string)
    (actuals : list Lit) :
  name <> "constructor" ->
  abi.Methods (Abi c) !! name = None ->
  parseCall c name actuals =
    Done (MkListener c 0 [] 0 None [] (Some (ErrUnknownMethod name))).
Proof.
  intros Hn Hm. unfold parseCall, callEvents. rewrite walk_cons.
  cbn [handle]. unfold EnterFuncName.
  destruct (decide (name = "constructor")); [contradiction|].
  simpl. rewrite Hm. cbn [mbind outcome_bind].
  apply (walk_bracketed_after_error _ false); [discriminate|].
  apply bracketed_arguments.
Qed.

Lemma unknown_method_call_witness :
  parseCall (H := SpecConversion.conversion) Samples.token "Transfer"
    [LArray "[1]" [LInt "1"]; LBool "x"]
  = Done (MkListener Samples.token 0 [] 0 None []
            (Some (ErrUnknownMethod "Transfer"))).
Proof.
  apply (@unknown_method_call SpecConversion.conversion).
  - discriminate.
  - vm_compute. reflexivity.
Defined.

(** ** Fewer arguments than parameters *)

Lemma walk_some_arguments `{Conversion} (c : Contract) (m : abi.Method) :
  forall inputs actuals vs,
    Forall3 validArg inputs actuals vs ->
    forall before rest mx out,
      abi.Inputs m = before ++ inputs ++ rest ->
      len (abi.Inputs m) <= maxInt ->
      exists mx',
        walk (flat_map argEvents actuals)
             (MkListener c (len before) [] mx (Some m) out None) =
          Done (MkListener c (len (before ++ inputs)) [] mx' (Some m)
                  (out ++ vs) None).
Proof.
  intros inputs actuals vs Hall.
  induction Hall as [|input a v inputs actuals vs Hv Hall IH];
    intros before rest mx out Hin Hlen.
  - exists mx. rewrite !app_nil_r. reflexivity.
  - destruct Hv as (base & d & Hb & Hd & Hk & Hlit).
    assert (Hi : index (abi.Inputs m) (len before) = Done input).
    { rewrite Hin. apply index_middle. }
    assert (Hlt : len before < maxInt).
    { apply index_in_range in Hi. lia. }
    destruct (walk_argument c m (len before) input base d Hi Hb Hd Hk
                a v mx out Hlt Hlit) as [mx1 Hw].
    unfold at_ in Hw.
    change (flat_map argEvents (a :: actuals))
      with (argEvents a ++ flat_map argEvents actuals).
    rewrite walk_app, Hw. cbn [mbind outcome_bind].
    destruct (IH (before ++ [input]) rest mx1 (out ++ [v])) as [mx2 Hw2].
    + rewrite <- app_assoc. exact Hin.
    + exact Hlen.
    + exists mx2. replace (len before + 1) with (len (before ++ [input])).
      * rewrite Hw2, <- !app_assoc. reflexivity.
      * unfold len. rewrite length_app. simpl. lia.
Qed.

(** The listener does not notice missing arguments: when the arguments of
    a call are literals that agree with the first parameters of the method
    (each parameter of a base kind of the interface under at most two array
    levels, each literal nested as deep as its parameter, every token
    converted without error to a value of the element type, a literal of
    two levels having at least one row), the call ends, however many
    parameters are left over, with no error and with only those values in
    the output. *)
Theorem missing_arguments_unreported `{Conversion} (c : Contract)
    (name : string) (m : abi.Method) (inputs rest : list abi.Argument)
    (actuals : list Lit) (vs : list Value) :
  resolves c name m ->
  len (abi.Inputs m) <= maxInt ->
  abi.Inputs m = inputs ++ rest ->
  Forall3 validArg inputs actuals vs ->
  exists l,
    parseCall c name actuals = Done l /\
    err l = None /\ args l = vs /\ curArray l = [] /\
    curArg l = len inputs /\
    (length (args l) + length rest = length (abi.Inputs m))%nat.
Proof.
  intros Hm Hlen Hin Hall.
  destruct (walk_some_arguments c m _ _ _ Hall [] rest 0 [] Hin Hlen)
    as [mx Hw].
  eexists. split.
  - unfold parseCall, callEvents. rewrite walk_cons. cbn [handle].
    rewrite (EnterFuncName_resolves c name m Hm). cbn [mbind outcome_bind].
    exact Hw.
  - cbn [err args curArray curArg app]. repeat split.
    rewrite Hin, length_app, (validArg_length _ _ _ Hall). reflexivity.
Qed.

Lemma missing_arguments_unreported_witness :
  exists l,
    parseCall (H := SpecConversion.conversion) Samples.token "transfer"
      [LHex "0x5FfC014343cd971B7eb70732021E26C35B744cc4"] = Done l /\
    err l = None /\ length (args l) = 1%nat.
Proof.
  destruct (@missing_arguments_unreported SpecConversion.conversion
              Samples.token "transfer"
              (Samples.signature "transfer" [Samples.address; Samples.uint256])
              [abi.MkArgument "" Samples.address]
              [abi.MkArgument "" Samples.uint256]
              [LHex "0x5FfC014343cd971B7eb70732021E26C35B744cc4"]
              [VAddress [95; 252; 1; 67; 67; 205; 151; 27; 126; 183; 7; 50; 2;
                         30; 38; 195; 91; 116; 76; 196]])
    as (l & Hl & He & Ha & _).
  - right. split; [discriminate|]. vm_compute. reflexivity.
  - vm_compute. discriminate.
  - reflexivity.
  - constructor; [|constructor].
    exists Samples.address, 0. split; [reflexivity|]. split; [reflexivity|].
    split; [reflexivity|]. apply literal_scalar. concrete_scalar.
  - exists l. rewrite Ha. auto.
Defined.

(** ** Brackets for a parameter that is no array *)

(** The empty list for a parameter with no array level makes the walk
    panic: no frame is opened, and the closing bracket indexes the empty
    stack. *)
Theorem empty_list_for_scalar_parameter `{Conversion} (c : Contract)
    (m : abi.Method) (i : Z) (input : abi.Argument) (base : abi.Ty)
    (text : string) (mx : Z) (out : list Value) :
  index (abi.Inputs m) i = Done input ->
  baseType (abi.Type_ input) = Done base ->
  arrayLevel (abi.Type_ input) = Done 0 ->
  walk (argEvents (LArray text [])) (at_ c m i [] mx out)
  = Panics IndexOutOfRange.
Proof.
  intros Hi Hb Hd.
  rewrite walk_array, (at_EnterArg c m i input Hi). cbn [mbind outcome_bind].
  rewrite (at_EnterArrayArg_new c m i input base 0 Hi Hb Hd).
  change (Z.to_nat 0) with 0%nat.
  cbn [mbind outcome_bind flat_map walk openLevels].
  unfold ExitArrayArg. cbn [err at_ curArray].
  change (len [] =? 1) with false. cbv iota.
  rewrite (at_curBaseType c m i input base Hi Hb). cbn [mbind outcome_bind].
  cbn [maxArrayLevel at_]. change (len (@nil Value)) with 0.
  change (0 + 1) with 1. rewrite (int_wrap_small 1) by lia.
  change (1 - 0) with 1. rewrite (int_wrap_small 1) by lia.
  change (1 =? 1) with true. cbv iota.
  change (0 - 2) with (-2). change (0 - 1) with (-1).
  rewrite (int_wrap_small (-2)), (int_wrap_small (-1)) by lia.
  unfold joinLevel1.
  destruct (abi.T base); rewrite ?size_switch;
    repeat (destruct (abi.Size base =? _)); reflexivity.
Qed.

Lemma empty_list_for_scalar_parameter_witness :
  walk (H := SpecConversion.conversion) (argEvents (LArray "[]" []))
    (at_ Samples.token (Samples.signature "h" [Samples.uint8]) 0 [] 0 [])
  = Panics IndexOutOfRange.
Proof.
  apply (@empty_list_for_scalar_parameter SpecConversion.conversion
           Samples.token (Samples.signature "h" [Samples.uint8]) 0
           (abi.MkArgument "" Samples.uint8) Samples.uint8);
    reflexivity.
Defined.

(** ** Opening again, and closing *)

(** Inside an argument [EnterArrayArg] opens only the levels that are not
    open: with a stack as deep as the parameter has array levels, or
    deeper, it changes nothing and sets no error; with the frame of rows
    alone open for a parameter of two levels, it opens the frame of
    elements. *)
Theorem open_only_missing_levels (c : Contract) (m : abi.Method) (i : Z)
    (input : abi.Argument) (base : abi.Ty) (d : Z)
    (text : string) (frames : list Value) (mx : Z) (out : list Value) :
  index (abi.Inputs m) i = Done input ->
  baseType (abi.Type_ input) = Done base ->
  arrayLevel (abi.Type_ input) = Done d ->
  scalarKind (abi.T base) = true ->
  frames <> [] -> len frames <= maxInt -> 0 <= d ->
  (d <= len frames ->
   EnterArrayArg text (at_ c m i frames mx out) = Done (at_ c m i frames mx out)) /\
  (d = 2 -> len frames = 1 ->
   EnterArrayArg text (at_ c m i frames mx out) =
     Done (at_ c m i (frames ++ [VSlice (elemType base) []]) mx out)).
Proof.
  intros Hi Hb Hd Hk Hne Hlen H0.
  rewrite (at_EnterArrayArg_extend c m i input base d Hi Hb Hd) by assumption.
  unfold maxInt in *. pose proof (len_pos _ Hne) as Hpos.
  split.
  - intros Hle. rewrite int_wrap_small by lia.
    replace (Z.to_nat (d - len frames)) with 0%nat by lia. reflexivity.
  - intros -> H1. rewrite H1. change (2 - 1) with 1.
    rewrite int_wrap_small by lia. change (Z.to_nat 1) with 1%nat.
    rewrite (openLevels_one c m i base Hk). reflexivity.
Qed.

Lemma open_only_missing_levels_witness :
  let grid := Samples.signature "grid" [Samples.sliceOf (Samples.sliceOf Samples.uint8)] in
  let rows := VSlice (GSlice (GInt Uint8)) [VSlice (GInt Uint8) [VInt Uint8 1]] in
  EnterArrayArg "[2]" (at_ Samples.token grid 0 [rows] 2 [])
  = Done (at_ Samples.token grid 0 [rows; VSlice (GInt Uint8) []] 2 []).
Proof.
  intros grid rows.
  apply (proj2 (open_only_missing_levels Samples.token grid 0
           (abi.MkArgument "" (Samples.sliceOf (Samples.sliceOf Samples.uint8)))
           Samples.uint8 2 "[2]" [rows] 2 []
           eq_refl eq_refl eq_refl eq_refl ltac:(discriminate)
           ltac:(vm_compute; discriminate) ltac:(lia)));
    reflexivity.
Defined.

(** A closing bracket that does not panic closes exactly one frame; it
    leaves the argument index, the method and the empty error slot alone;
    and it appends to the output exactly when the frame was the only one,
    the frame itself. *)
Theorem closing_bracket_pops_one_frame (l l' : methodListener) :
  err l = None ->
  len (curArray l) <= maxInt ->
  ExitArrayArg l = Done l' ->
  length (curArray l) = S (length (curArray l')) /\
  curArg l' = curArg l /\ method l' = method l /\ err l' = None /\
  ((exists top, curArray l = [top] /\ args l' = args l ++ [top]) \/
   (length (curArray l) <> 1%nat /\ args l' = args l)).
Proof.
  intros He Hlen Hx. unfold ExitArrayArg in Hx. rewrite He in Hx.
  destruct (Z.eqb_spec (len (curArray l)) 1) as [H1|H1].
  - assert (Hc : exists top, curArray l = [top]).
    { destruct (curArray l) as [|top [|]]; unfold len in H1; simpl in H1;
        try lia. eauto. }
    destruct Hc as [top Ec]. rewrite Ec in Hx. simpl in Hx.
    unfold popLast, slice_to in Hx. simpl in Hx. rewrite Ec in Hx.
    simpl in Hx. injection Hx as <-. simpl. rewrite He, Ec.
    repeat split. left. eauto.
  - destruct (curBaseType l) as [base|]; [|discriminate]. simpl in Hx.
    match type of Hx with
    | (?j ≫= _) = _ => destruct j as [l1|] eqn:Ej; [|discriminate]
    end.
    simpl in Hx.
    assert (Hsame : sameButFrames l l1).
    { destruct (_ =? 1) in Ej; [eapply joinLevel1_same; exact Ej|].
      destruct (_ =? 2) in Ej; [eapply joinLevel2_same; exact Ej|].
      injection Ej as <-. unfold sameButFrames. auto. }
    destruct Hsame as (Hca & Hme & Har & Her & Hl).
    unfold popLast, slice_to in Hx. unfold len, maxInt in *.
    rewrite Hl in Hx.
    destruct (Z.ltb_spec (int_wrap (Z.of_nat (length (curArray l)) - 1)) 0)
      as [Hneg|Hpos]; [discriminate|].
    destruct (Z.ltb_spec (Z.of_nat (length (curArray l)))
                (int_wrap (Z.of_nat (length (curArray l)) - 1)));
      [discriminate|].
    simpl in Hx. injection Hx as <-. simpl.
    destruct (length (curArray l)) as [|n] eqn:En.
    + change (Z.of_nat 0 - 1) with (-1) in Hpos.
      rewrite int_wrap_small in Hpos by lia. lia.
    + rewrite int_wrap_small by lia. rewrite length_take, Hl.
      repeat split; try congruence; try lia.
      right. split; [lia|exact Har].
Qed.

Lemma closing_bracket_pops_one_frame_witness :
  let closed := set_curArray (set_args opened [VSlice (GInt Uint8) []]) [] in
  length (curArray opened) = S (length (curArray closed)) /\
  curArg closed = curArg opened /\ method closed = method opened /\
  err closed = None /\
  ((exists top, curArray opened = [top] /\ args closed = args opened ++ [top]) \/
   (length (curArray opened) <> 1%nat /\ args closed = args opened)).
Proof.
  intros closed.
  apply (closing_bracket_pops_one_frame opened closed).
  - reflexivity.
  - vm_compute. discriminate.
  - vm_compute. reflexivity.
Defined.

(** ** The depth of the stack *)

Lemma afterOf_cons (after : bool) (e : event) (es : list event) :
  afterOf after (e :: es) = afterOf (closesArg e) es.
Proof. unfold afterOf. rewrite last_cons. destruct (last es); reflexivity. Qed.

Lemma walk_keeps_invariant `{Conversion} (m : abi.Method) :
  len (abi.Inputs m) <= maxInt ->
  forall es after l l',
    bracketed after es = true -> invariant m after l ->
    walk es l = Done l' -> invariant m (afterOf after es) l'.
Proof.
  intros Hmax es. induction es as [|e es IH]; intros after l l' Hes Hinv Hw.
  - injection Hw as <-. exact Hinv.
  - simpl in Hes. apply andb_true_iff in Hes as [Hes Hrest].
    apply andb_true_iff in Hes as [Hf Ha].
    apply negb_true_iff in Hf. apply Bool.eqb_prop in Ha.
    rewrite walk_cons in Hw.
    destruct (handle e l) as [l1|] eqn:He; [|discriminate]. simpl in Hw.
    rewrite afterOf_cons. eapply IH; [exact Hrest| |exact Hw].
    eapply handle_invariant; eassumption.
Qed.

(** At every point that the walk over the events of a call reaches with no
    error, the stack has at most two frames, and when it has any, it has no
    more than the array levels of the parameter at the argument index,
    which is in range. *)
Theorem stack_no_deeper_than_declared `{Conversion} (c : Contract)
    (name : string) (actuals : list Lit) (k : nat) (l : methodListener) :
  (forall m, resolves c name m -> len (abi.Inputs m) <= maxInt) ->
  walk (take k (callEvents name actuals)) (newMethodListener c) = Done l ->
  err l = None ->
  len (curArray l) <= 2 /\
  (curArray l <> [] ->
   exists m input d,
     method l = Some m /\
     index (abi.Inputs m) (curArg l) = Done input /\
     arrayLevel (abi.Type_ input) = Done d /\
     len (curArray l) <= d).
Proof.
  intros Hmax Hw He.
  destruct k as [|k].
  { injection Hw as <-. split; [unfold len; simpl; lia|].
    intros Hne. contradiction. }
  unfold callEvents in Hw. cbn [take] in Hw. rewrite walk_cons in Hw.
  cbn [handle] in Hw.
  pose proof (bracketed_take _ k false (bracketed_arguments actuals)) as Hbr.
  assert (Hres : forall m, resolves c name m ->
            method l = Some m /\ stackTyped m l).
  { intros m Hm. rewrite (EnterFuncName_resolves c name m Hm) in Hw.
    cbn [mbind outcome_bind] in Hw.
    assert (Hinv : invariant m (afterOf false (take k (flat_map argEvents actuals))) l).
    { eapply (walk_keeps_invariant m (Hmax m Hm)); [exact Hbr| |exact Hw].
      split; [split; [reflexivity|simpl; lia]|].
      intros _. split; [simpl; unfold len; simpl; lia|]. intros Hne.
      simpl in Hne. contradiction. }
    destruct Hinv as [[Hme _] Hs]. split; [exact Hme|].
    specialize (Hs He).
    destruct (afterOf false _).
    - destruct Hs as [(Hc & _)|(_ & _ & Hst)]; [|exact Hst].
      intros Hne. contradiction.
    - apply Hs. }
  assert (Hgoal : forall m, method l = Some m -> stackTyped m l ->
    len (curArray l) <= 2 /\
    (curArray l <> [] ->
     exists m input d,
       method l = Some m /\
       index (abi.Inputs m) (curArg l) = Done input /\
       arrayLevel (abi.Type_ input) = Done d /\
       len (curArray l) <= d)).
  { intros m Hme Hst. split.
    - destruct (decide (curArray l = [])) as [Ec|Hne].
      + rewrite Ec. unfold len. simpl. lia.
      + destruct (Hst Hne) as (input & d & _ & _ & Hl & H2). lia.
    - intros Hne. destruct (Hst Hne) as (input & d & Hi & Hd & Hl & _).
      exists m, input, d. auto. }
  destruct (decide (name = "constructor")) as [Hn|Hn].
  - destruct (Hres (abi.Constructor (Abi c))) as [Hme Hst]; [left; auto|].
    eapply Hgoal; eassumption.
  - destruct (abi.Methods (Abi c) !! name) as [m|] eqn:Em.
    + destruct (Hres m) as [Hme Hst]; [right; auto|].
      eapply Hgoal; eassumption.
    + unfold EnterFuncName in Hw.
      destruct (decide (name = "constructor")); [contradiction|].
      simpl in Hw. rewrite Em in Hw. cbn [mbind outcome_bind] in Hw.
      rewrite (walk_bracketed_after_error _ false) in Hw;
        [|discriminate|exact Hbr].
      injection Hw as <-. discriminate He.
Qed.

Lemma stack_no_deeper_than_declared_witness :
  let l := at_ Samples.token
             (Samples.signature "grid" [Samples.sliceOf (Samples.sliceOf Samples.uint8)])
             0 [VSlice (GSlice (GInt Uint8)) []; VSlice (GInt Uint8) [VInt Uint8 1]]
             2 [] in
  len (curArray l) <= 2 /\
  (curArray l <> [] ->
   exists m input d,
     method l = Some m /\
     index (abi.Inputs m) (curArg l) = Done input /\
     arrayLevel (abi.Type_ input) = Done d /\
     len (curArray l) <= d).
Proof.
  intros l.
  apply (@stack_no_deeper_than_declared SpecConversion.conversion
           Samples.token "grid"
           [LArray "[[1]]" [LArray "[1]" [LInt "1"]]] 7 l).
  - intros m [[Hn _]|[_ Hm]]; [discriminate Hn|].
    vm_compute in Hm. injection Hm as <-. vm_compute. discriminate.
  - vm_compute. reflexivity.
  - reflexivity.
Defined.

(** ** Frames never mix element types *)

Lemma wellFormed_slice (elem : GoType) (xs : list Value) :
  wellFormed (VSlice elem xs) <->
  Forall (fun x => (elem = GInterface \/ typeOf x = Some elem) /\ wellFormed x) xs.
Proof.
  induction xs as [|x xs IH]; simpl.
  - split; [constructor|trivial].
  - split.
    + intros (Ht & Hx & Hxs). constructor; [auto|]. apply IH. exact Hxs.
    + intros Hall. inversion Hall as [|? ? [Ht Hx] Hxs]; subst.
      apply IH in Hxs. auto.
Qed.

Lemma wellFormed_append (elem : GoType) (xs : list Value) (x : Value) :
  wellFormed (VSlice elem xs) ->
  elem = GInterface \/ typeOf x = Some elem ->
  wellFormed x ->
  wellFormed (VSlice elem (xs ++ [x])).
Proof.
  rewrite !wellFormed_slice. intros Hxs Ht Hx.
  apply Forall_app. split; [exact Hxs|]. constructor; [auto|constructor].
Qed.

Lemma assertSlice_Done (elem : GoType) (v : Value) (xs : list Value) :
  assertSlice elem v = Done xs -> v = VSlice elem xs.
Proof.
  destruct v; try discriminate. simpl.
  destruct (decide (elem0 = elem)) as [->|]; [|discriminate].
  intros [= ->]. reflexivity.
Qed.

Lemma assertType_Done (t : GoType) (v v' : Value) :
  assertType t v = Done v' -> v' = v /\ typeOf v = Some t.
Proof.
  unfold assertType. destruct (decide (typeOf v = Some t)); [|discriminate].
  intros [= <-]. auto.
Qed.

Lemma index_Forall {A} (P : A -> Prop) (s : list A) (i : Z) (x : A) :
  Forall P s -> index s i = Done x -> P x.
Proof.
  intros Hall [_ Hx]%index_Done. eapply Forall_lookup_1; eassumption.
Qed.

Lemma store_Forall {A} (P : A -> Prop) (s s' : list A) (i : Z) (x : A) :
  Forall P s -> P x -> store s i x = Done s' -> Forall P s'.
Proof.
  unfold store. destruct ((i <? 0) || (len s <=? i)); [discriminate|].
  intros Hall Hx [= <-]. apply Forall_insert; assumption.
Qed.

Lemma slice_to_Forall {A} (P : A -> Prop) (s s' : list A) (n : Z) :
  Forall P s -> slice_to s n = Done s' -> Forall P s'.
Proof.
  unfold slice_to. destruct ((n <? 0) || (len s <? n)); [discriminate|].
  intros Hall [= <-]. apply Forall_take. exact Hall.
Qed.

Lemma pushLast_wellFormed (elem : GoType) (l l' : methodListener) (arg : Value) :
  holdsWellFormed l -> wellFormed arg ->
  pushLast elem l arg = Done l' -> holdsWellFormed l'.
Proof.
  intros [Hf Ha] Hv. unfold pushLast, appendTyped.
  destruct (index (curArray l) _) as [f|] eqn:Ei; [|discriminate]. simpl.
  destruct (assertSlice elem f) as [xs|] eqn:Es; [|discriminate]. simpl.
  destruct (assertType elem arg) as [a|] eqn:Et; [|discriminate]. simpl.
  destruct (store _ _ _) as [fs|] eqn:Est; [|discriminate]. simpl.
  intros [= <-]. split; [|exact Ha]. simpl.
  apply assertSlice_Done in Es. apply assertType_Done in Et as [-> Ht].
  eapply store_Forall; [exact Hf| |exact Est].
  apply wellFormed_append; auto.
  rewrite <- Es. exact (index_Forall _ _ _ _ Hf Ei).
Qed.

Lemma pushIface_wellFormed (l l' : methodListener) (arg : Value) :
  holdsWellFormed l -> wellFormed arg ->
  (let last := int_wrap (len (curArray l) - 1) in
   frame ← index (curArray l) last;
   frame' ← appendIface frame arg;
   a ← store (curArray l) last frame';
   Done (set_curArray l a)) = Done l' ->
  holdsWellFormed l'.
Proof.
  intros [Hf Ha] Hv. cbn zeta. unfold appendIface.
  destruct (index (curArray l) _) as [f|] eqn:Ei; [|discriminate]. simpl.
  destruct (assertSlice GInterface f) as [xs|] eqn:Es; [|discriminate]. simpl.
  destruct (store _ _ _) as [fs|] eqn:Est; [|discriminate]. simpl.
  intros [= <-]. split; [|exact Ha]. simpl.
  apply assertSlice_Done in Es.
  eapply store_Forall; [exact Hf| |exact Est].
  apply wellFormed_append; auto.
  rewrite <- Es. exact (index_Forall _ _ _ _ Hf Ei).
Qed.

Lemma pushArg_wellFormed (l l' : methodListener) (arg : Value) :
  holdsWellFormed l -> wellFormed arg ->
  pushArg l arg = Done l' -> holdsWellFormed l'.
Proof.
  intros Hl Hv. unfold pushArg. destruct (len (curArray l) =? 0).
  - intros [= <-]. destruct Hl as [Hf Ha]. split; [exact Hf|]. simpl.
    apply Forall_app. split; [exact Ha|]. constructor; [exact Hv|constructor].
  - destruct (curBaseType l) as [base|]; [|discriminate]. simpl.
    by_switch base pushLast_wellFormed; apply pushIface_wellFormed; assumption.
Qed.

Lemma joinLast_wellFormed (elem : GoType) (l l' : methodListener) (parent child : Z) :
  holdsWellFormed l ->
  joinLast elem l parent child = Done l' -> holdsWellFormed l'.
Proof.
  intros [Hf Ha]. unfold joinLast.
  destruct (index (curArray l) parent) as [p|] eqn:Ep; [|discriminate]. simpl.
  destruct (assertSlice elem p) as [xs|] eqn:Es; [|discriminate]. simpl.
  destruct (index (curArray l) child) as [ch|] eqn:Ec; [|discriminate]. simpl.
  destruct (assertType elem ch) as [ch'|] eqn:Et; [|discriminate]. simpl.
  destruct (store _ _ _) as [fs|] eqn:Est; [|discriminate]. simpl.
  intros [= <-]. split; [|exact Ha]. simpl.
  apply assertSlice_Done in Es. apply assertType_Done in Et as [-> Ht].
  eapply store_Forall; [exact Hf| |exact Est].
  apply wellFormed_append; auto.
  - rewrite <- Es. exact (index_Forall _ _ _ _ Hf Ep).
  - exact (index_Forall _ _ _ _ Hf Ec).
Qed.

Lemma joinLastIface_wellFormed (l l' : methodListener) (parent child : Z) :
  holdsWellFormed l ->
  joinLastIface l parent child = Done l' -> holdsWellFormed l'.
Proof.
  intros [Hf Ha]. unfold joinLastIface.
  destruct (index (curArray l) parent) as [p|] eqn:Ep; [|discriminate]. simpl.
  destruct (assertSlice GInterface p) as [xs|] eqn:Es; [|discriminate]. simpl.
  destruct (index (curArray l) child) as [ch|] eqn:Ec; [|discriminate]. simpl.
  destruct (store _ _ _) as [fs|] eqn:Est; [|discriminate]. simpl.
  intros [= <-]. split; [|exact Ha]. simpl.
  apply assertSlice_Done in Es.
  eapply store_Forall; [exact Hf| |exact Est].
  apply wellFormed_append; auto.
  - rewrite <- Es. exact (index_Forall _ _ _ _ Hf Ep).
  - exact (index_Forall _ _ _ _ Hf Ec).
Qed.

Lemma joinLevel1_wellFormed (base : abi.Ty) (l l' : methodListener) (parent child : Z) :
  holdsWellFormed l ->
  joinLevel1 base l parent child = Done l' -> holdsWellFormed l'.
Proof.
  intros Hl. unfold joinLevel1.
  by_switch base joinLast_wellFormed; apply joinLastIface_wellFormed; assumption.
Qed.

Lemma joinLevel2_wellFormed (base : abi.Ty) (l l' : methodListener) (parent child : Z) :
  holdsWellFormed l ->
  joinLevel2 base l parent child = Done l' -> holdsWellFormed l'.
Proof. intros Hl. unfold joinLevel2. by_switch base joinLast_wellFormed. Qed.

Lemma popLast_wellFormed (l l' : methodListener) :
  holdsWellFormed l -> popLast l = Done l' -> holdsWellFormed l'.
Proof.
  intros [Hf Ha]. unfold popLast.
  destruct (slice_to _ _) as [fs|] eqn:Es; [|discriminate]. simpl.
  intros [= <-]. split; [|exact Ha]. simpl.
  exact (slice_to_Forall _ _ _ _ Hf Es).
Qed.

Lemma makeArray_empty (base : abi.Ty) (level : Z) (array : Value) :
  makeArray base level = (array, None) -> exists elem, array = VSlice elem [].
Proof.
  unfold makeArray, emptySlice.
  destruct (level =? 2); [|destruct (level =? 1); [|discriminate]];
    destruct (abi.T base); rewrite ?size_switch;
    repeat (destruct (abi.Size base =? _));
    intros [= <-]; eauto.
Qed.

Lemma openLevels_wellFormed (base : abi.Ty) (n : nat) : forall l,
  holdsWellFormed l -> holdsWellFormed (openLevels base n l).
Proof.
  induction n as [|n IH]; intros l Hl; [exact Hl|].
  cbn [openLevels].
  destruct (makeArray base (Z.of_nat (S n))) as [array [e|]] eqn:Em;
    [exact Hl|].
  apply makeArray_empty in Em as [elem ->].
  apply IH. destruct Hl as [Hf Ha]. split; [|exact Ha]. simpl.
  apply Forall_app. split; [exact Hf|]. constructor; [|constructor].
  simpl. trivial.
Qed.

Section WellFormed.
Context `{Conversion}.
Hypothesis Hconv : wellFormedConversion.

Lemma token_wellFormed (a : Lit) (l l' : methodListener) :
  (forall text elems, a <> LArray text elems) ->
  holdsWellFormed l -> walk (litEvents a) l = Done l' -> holdsWellFormed l'.
Proof.
  intros Htok Hl Hw. rewrite walk_token in Hw by assumption.
  destruct (err l); [injection Hw as <-; exact Hl|].
  destruct (curBaseType l) as [base|]; [|discriminate]. simpl in Hw.
  destruct (convertLit base a) as [v [e|]] eqn:Ec; simpl in Hw.
  - injection Hw as <-. exact Hl.
  - eapply pushArg_wellFormed; [exact Hl| |exact Hw].
    eapply Hconv. exact Ec.
Qed.

Lemma handle_wellFormed (e : event) (l l' : methodListener) :
  holdsWellFormed l -> handle e l = Done l' -> holdsWellFormed l'.
Proof.
  intros Hl He. destruct e; simpl in He.
  - unfold EnterFuncName in He. destruct (decide _); [injection He as <-; exact Hl|].
    destruct (_ !! _); injection He as <-; exact Hl.
  - unfold EnterArg in He. destruct (err l); [injection He as <-; exact Hl|].
    destruct (methodInputs l); [|discriminate]. simpl in He.
    destruct (_ <=? _); injection He as <-; exact Hl.
  - unfold ExitArg in He. destruct (err l); [injection He as <-; exact Hl|].
    destruct (_ =? _); injection He as <-; exact Hl.
  - apply (token_wellFormed (LInt text) l l'); try assumption; try discriminate.
    simpl. rewrite bind_Done_r. exact He.
  - apply (token_wellFormed (LBool text) l l'); try assumption; try discriminate.
    simpl. rewrite bind_Done_r. exact He.
  - apply (token_wellFormed (LString text) l l'); try assumption; try discriminate.
    simpl. rewrite bind_Done_r. exact He.
  - apply (token_wellFormed (LHex text) l l'); try assumption; try discriminate.
    simpl. rewrite bind_Done_r. exact He.
  - unfold EnterArrayArg in He. destruct (err l); [injection He as <-; exact Hl|].
    destruct (methodInputs l) as [inputs|]; [|discriminate]. simpl in He.
    destruct (_ <=? _); [injection He as <-; exact Hl|].
    destruct (index inputs (curArg l)) as [input|]; [|discriminate]. simpl in He.
    destruct (baseType (abi.Type_ input)) as [base|]; [|discriminate]. simpl in He.
    destruct (arrayLevel (abi.Type_ input)) as [d|]; [|discriminate]. simpl in He.
    destruct (_ =? _); injection He as <-; apply openLevels_wellFormed;
      [|exact Hl].
    destruct Hl as [_ Ha]. split; [constructor|exact Ha].
  - unfold ExitArrayArg in He. destruct (err l); [injection He as <-; exact Hl|].
    destruct (len (curArray l) =? 1).
    + destruct (index (curArray l) 0) as [top|] eqn:Et; [|discriminate].
      simpl in He. eapply popLast_wellFormed; [|exact He].
      destruct Hl as [Hf Ha]. split; [exact Hf|]. simpl.
      apply Forall_app. split; [exact Ha|]. constructor; [|constructor].
      exact (index_Forall _ _ _ _ Hf Et).
    + destruct (curBaseType l) as [base|]; [|discriminate]. simpl in He.
      match type of He with
      | (?j ≫= _) = _ => destruct j as [l1|] eqn:Ej; [|discriminate]
      end.
      simpl in He. eapply popLast_wellFormed; [|exact He].
      destruct (_ =? 1) in Ej; [eapply joinLevel1_wellFormed; eassumption|].
      destruct (_ =? 2) in Ej; [eapply joinLevel2_wellFormed; eassumption|].
      injection Ej as <-. exact Hl.
Qed.

End WellFormed.

(** Whatever the events and their order, the frames and the output only
    ever hold values Go could hold, provided the conversion functions
    return such values: every element of a slice has the element type of
    the slice.  A frame never mixes element types. *)
Theorem frames_never_mix_types `{Conversion} (es : list event)
    (l l' : methodListener) :
  wellFormedConversion ->
  holdsWellFormed l ->
  walk es l = Done l' ->
  holdsWellFormed l'.
Proof.
  intros Hconv. revert l. induction es as [|e es IH]; intros l Hl Hw.
  - injection Hw as <-. exact Hl.
  - rewrite walk_cons in Hw. destruct (handle e l) as [l1|] eqn:He;
      [|discriminate].
    simpl in Hw. eapply IH; [|exact Hw].
    eapply handle_wellFormed; eassumption.
Qed.

(** The conversions of the samples return such values. *)
Lemma sample_conversion_wellFormed :
  @wellFormedConversion SpecConversion.conversion.
Proof.
  intros base a v Hc.
  destruct a as [t|t|t|t|t elems]; simpl in Hc.
  - destruct (abi.T base); try discriminate;
      unfold SpecConversion.strToInt, SpecConversion.strToUint,
        SpecConversion.fail in Hc;
      destruct (SpecConversion.decimal t); try discriminate;
      destruct (_ && _); try discriminate;
      rewrite size_switch in Hc;
      repeat (destruct (abi.Size base =? _));
      injection Hc as <-; exact I.
  - unfold SpecConversion.strToBool, SpecConversion.fail in Hc.
    repeat (destruct (decide _)); try discriminate; injection Hc as <-; exact I.
  - injection Hc as <-. exact I.
  - destruct (abi.T base); try discriminate;
      unfold SpecConversion.strToAddress, SpecConversion.strToHash,
        SpecConversion.strToBytes, SpecConversion.fail in Hc;
      destruct (SpecConversion.hexText t) as [bs|]; try discriminate;
      try (destruct (_ =? _); try discriminate; injection Hc as <-; exact I);
      destruct (_ && _); try discriminate; injection Hc as <-;
      apply wellFormed_slice; apply Forall_fmap; apply Forall_true;
      intros b; simpl; auto.
  - injection Hc as <-. exact I.
Qed.

Lemma frames_never_mix_types_witness :
  holdsWellFormed
    (at_ Samples.token
       (Samples.signature "grid" [Samples.sliceOf (Samples.sliceOf Samples.uint8)])
       0 [VSlice (GSlice (GInt Uint8)) []; VSlice (GInt Uint8) [VInt Uint8 1]]
       2 []).
Proof.
  apply (@frames_never_mix_types SpecConversion.conversion
           (take 7 (callEvents "grid" [LArray "[[1]]" [LArray "[1]" [LInt "1"]]]))
           (newMethodListener Samples.token)).
  - exact sample_conversion_wellFormed.
  - split; constructor.
  - vm_compute. reflexivity.
Defined.

(** ** A conversion that fails *)

(** The error of a conversion function becomes the error of the parse as
    it is: when the arguments before are literals that agree with their
    parameters (each parameter of a base kind of the interface under at
    most two array levels, each literal nested as deep as its parameter,
    every token converted without error to a value of the element type, a
    literal of two levels having at least one row) and the conversion of
    the next token fails, outside any array, the call ends with that very
    error and with the values of the arguments before, whatever follows
    the token. *)
Theorem conversion_error_is_kept `{Conversion} (c : Contract) (name : string)
    (m : abi.Method) (inputs rest : list abi.Argument) (input : abi.Argument)
    (base : abi.Ty) (actuals more : list Lit) (vs : list Value)
    (bad : Lit) (v : Value) (e : error) :
  resolves c name m ->
  len (abi.Inputs m) <= maxInt ->
  abi.Inputs m = inputs ++ input :: rest ->
  Forall3 validArg inputs actuals vs ->
  baseType (abi.Type_ input) = Done base ->
  (forall text elems, bad <> LArray text elems) ->
  convertLit base bad = (v, Some e) ->
  exists l,
    parseCall c name (actuals ++ bad :: more) = Done l /\
    err l = Some e /\ args l = vs.
Proof.
  intros Hm Hlen Hin Hall Hb Htok Hc.
  destruct (walk_some_arguments c m _ _ _ Hall [] (input :: rest) 0 [] Hin Hlen)
    as [mx Hw].
  assert (Hi : index (abi.Inputs m) (len inputs) = Done input).
  { rewrite Hin. apply index_middle. }
  eexists. split.
  - unfold parseCall, callEvents. rewrite walk_cons. cbn [handle].
    rewrite (EnterFuncName_resolves c name m Hm). cbn [mbind outcome_bind].
    rewrite flat_map_app, walk_app.
    change (len []) with 0 in Hw. rewrite Hw. cbn [mbind outcome_bind app].
    assert (Hrest :
      forallb (fun e => negb (isFunctionName e))
        (flat_map argEvents (bad :: more)) = true)
      by apply arguments_no_function_name.
    change (flat_map argEvents (bad :: more))
      with (OnArgumentStart ::
              (litEvents bad ++ [OnArgumentEnd]) ++ flat_map argEvents more)
      in *.
    rewrite walk_cons. cbn [handle].
    erewrite EnterArg_in_range; [|reflexivity|reflexivity|exact Hi].
    cbn [mbind outcome_bind]. rewrite <- app_assoc, walk_app.
    rewrite walk_token by assumption. cbn [err].
    erewrite curBaseType_Done; [|reflexivity|exact Hi|exact Hb].
    cbn [mbind outcome_bind]. rewrite Hc. cbn [pushConverted mbind outcome_bind].
    apply walk_after_error; [discriminate|].
    cbn [forallb isFunctionName negb andb] in Hrest.
    rewrite <- app_assoc, forallb_app in Hrest.
    apply andb_true_iff in Hrest as [_ Hrest]. exact Hrest.
  - simpl. auto.
Qed.

Lemma conversion_error_is_kept_witness :
  exists l,
    parseCall (H := SpecConversion.conversion) Samples.token "g"
      ([] ++ LBool "notabool" :: [LInt "2"]) = Done l /\
    err l = Some SpecConversion.formatError /\ args l = [].
Proof.
  apply (@conversion_error_is_kept SpecConversion.conversion Samples.token "g"
           (Samples.signature "g" [Samples.boolean]) [] []
           (abi.MkArgument "" Samples.boolean) Samples.boolean
           [] [LInt "2"] [] (LBool "notabool") VNil SpecConversion.formatError).
  - right. split; [discriminate|]. vm_compute. reflexivity.
  - vm_compute. discriminate.
  - reflexivity.
  - constructor.
  - reflexivity.
  - discriminate.
  - vm_compute. reflexivity.
Defined.

(** ** Arrays of a declared length *)

(** The length of an array type is not looked at: for a parameter [T[n]]
    over a base kind of the interface, a list of tokens of any length is
    taken, and the argument is a slice of as many values. *)
Theorem declared_length_not_checked `{Conversion} (c : Contract)
    (m : abi.Method) (i : Z) (argName : string) (base : abi.Ty) (n : Z)
    (a : Lit) (vs : list Value) (mx : Z) (out : list Value) :
  index (abi.Inputs m) i =
    Done (abi.MkArgument argName (wrapOne (MkWrapper false n) base)) ->
  scalarKind (abi.T base) = true ->
  i < maxInt ->
  rowOf base a vs ->
  walk (argEvents a) (at_ c m i [] mx out) =
    Done (MkListener c (i + 1) [] 1 (Some m)
            (out ++ [VSlice (elemType base) vs]) None).
Proof.
  intros Hi Hk Hlt Hrow.
  assert (Hnot : isArrayKind (abi.T base) = false)
    by (destruct (abi.T base); try discriminate; reflexivity).
  eapply walk_row_top; try eassumption; try reflexivity.
  - unfold wrapOne. cbn [abi.Type_ wrapsSlice wrapSize].
    rewrite baseType_unfold. apply baseType_elementary. exact Hnot.
  - unfold wrapOne. cbn [abi.Type_ wrapsSlice wrapSize].
    rewrite arrayLevel_unfold. cbn [isArrayKind].
    rewrite (arrayLevel_elementary base Hnot). cbn [mbind outcome_bind].
    rewrite int_wrap_small by lia. reflexivity.
Qed.

Lemma declared_length_not_checked_witness :
  let pair := abi.MkMethod "pair"
                [abi.MkArgument "p" (wrapOne (MkWrapper false 2) Samples.uint8)] in
  walk (H := SpecConversion.conversion)
    (argEvents (LArray "[1,2,3]" [LInt "1"; LInt "2"; LInt "3"]))
    (at_ Samples.token pair 0 [] 0 [])
  = Done (MkListener Samples.token 1 [] 1 (Some pair)
            [VSlice (GInt Uint8) [VInt Uint8 1; VInt Uint8 2; VInt Uint8 3]]
            None).
Proof.
  intros pair.
  apply (@declared_length_not_checked SpecConversion.conversion Samples.token
           pair 0 "p" Samples.uint8 2
           (LArray "[1,2,3]" [LInt "1"; LInt "2"; LInt "3"])
           [VInt Uint8 1; VInt Uint8 2; VInt Uint8 3] 0 []).
  - reflexivity.
  - reflexivity.
  - vm_compute. reflexivity.
  - concrete_row.
Defined.
